(** * NeMo text-to-speech tokenizer utilities

    A shallow embedding of
    [nemo/collections/common/tokenizers/text_to_speech/tokenizer_utils.py]
    and of [scripts/dataset_processing/tts/indictts/indic_syllable_extractor.py],
    with the properties of the tokenizer, the quote folding, the Unicode
    normaliser and the two grapheme clusterers. *)

From Stdlib Require Import NArith ZArith Arith Bool Lia String Ascii List.
Import ListNotations.
Local Open Scope list_scope.

Set Implicit Arguments.

(** ** Python strings

    A Python [str] is a sequence of Unicode code points; a character is a
    string of length one.  Code points are kept as [N]. *)

Definition char := N.
Definition str := list char.

Fixpoint str_of (s : string) : str :=
  match s with
  | EmptyString => []
  | String a s' => N_of_ascii a :: str_of s'
  end.

Definition chr (a : ascii) : char := N_of_ascii a.

Arguments str_of s%_string.
Arguments chr a%_char.

Definition eqc (a b : char) : bool := N.eqb a b.

(** [c in s] for a one-character [c]. *)
Definition char_in (c : char) (s : str) : bool := existsb (eqc c) s.

(** [lo <= c <= hi], a range of a character class. *)
Definition in_range (lo hi c : char) : bool := (N.leb lo c && N.leb c hi)%bool.

Definition PIPE : char := chr "|".
Definition SPACE : char := chr " ".
Definition HYPHEN : char := chr "-".
Definition APOSTROPHE : char := chr "'".
Definition DOUBLE_QUOTE : char := 34%N.
Definition RIGHT_SINGLE_QUOTATION_MARK : char := 8217%N.   (* U+2019 *)
Definition LEFT_DOUBLE_QUOTATION_MARK : char := 8220%N.    (* U+201C *)
Definition RIGHT_DOUBLE_QUOTATION_MARK : char := 8221%N.   (* U+201D *)

(** [s[i:j]] with Python's treatment of negative and out-of-range bounds. *)
Definition slice_bound (len i : Z) : Z :=
  if (i <? 0)%Z then Z.max 0 (i + len) else Z.min i len.

Definition slice (s : str) (i j : Z) : str :=
  let len := Z.of_nat (length s) in
  let lo := slice_bound len i in
  let hi := slice_bound len j in
  firstn (Z.to_nat (hi - lo)) (skipn (Z.to_nat lo) s).

(** [s.split(sep)] for a one-character separator: every occurrence of the
    separator cuts, and empty pieces are kept. *)
Fixpoint split (sep : char) (s : str) : list str :=
  match s with
  | [] => [[]]
  | c :: s' =>
      if eqc c sep then [] :: split sep s'
      else match split sep s' with
           | piece :: pieces => (c :: piece) :: pieces
           | [] => [[c]]
           end
  end.

(** [sep.join(pieces)]. *)
Fixpoint join (sep : str) (pieces : list str) : str :=
  match pieces with
  | [] => []
  | [p] => p
  | p :: ps => p ++ sep ++ join sep ps
  end.

(** ** The part of Python's Unicode support the module calls

    [unicodedata.normalize], [unicodedata.is_normalized],
    [unicodedata.category] and the [str] methods [isdigit], [isspace] and
    [lower] are tables of the interpreter; the functions below take them
    as an interface. *)

Record unicode := {
  normalize_NFC : str -> str;
  is_normalized_NFC : str -> bool;
  normalize_NFD : str -> str;
  category_Mn : char -> bool;
  isdigit : char -> bool;
  isspace : char -> bool;
  lower : str -> str
}.

(** ** Regular expressions, as [re] runs them

    The fragment of [re] syntax the two patterns use: a character class, a
    sequence, and the greedy repetitions [*] and [+].  Matching is
    backtracking with Python's priorities: a greedy repetition first tries
    one more iteration and only then the rest of the pattern. *)

Inductive regex :=
| Class (p : char -> bool)
| Cat (r1 r2 : regex)
| Star (r : regex).

Definition Plus (r : regex) : regex := Cat r (Star r).

(** The first alternative that succeeds. *)
Definition orelse {A} (a b : option A) : option A :=
  match a with Some _ => a | None => b end.

(** One greedy repetition: [n] bounds the number of iterations, each of
    which has to consume a character. *)
Fixpoint repeat_greedy (body : str -> (str -> option str) -> option str)
    (k : str -> option str) (n : nat) (s : str) : option str :=
  match n with
  | O => k s
  | S n' =>
      orelse
        (body s (fun s1 =>
           if length s1 <? length s then repeat_greedy body k n' s1 else None))
        (k s)
  end.

(** [exec r s k]: match [r] at the start of [s] and hand what is left to
    the continuation [k]; [None] makes the matcher backtrack. *)
Fixpoint exec (r : regex) (s : str) (k : str -> option str) : option str :=
  match r with
  | Class p =>
      match s with
      | c :: s' => if p c then k s' else None
      | [] => None
      end
  | Cat r1 r2 => exec r1 s (fun s1 => exec r2 s1 k)
  | Star r1 => repeat_greedy (exec r1) k (length s) s
  end.

(** A pattern of the shape [(word)|(unchanged)|(punct)]: three capturing
    groups, alternatives tried from left to right. *)
Record words_re := {
  word_group : regex;
  unchanged_group : regex;
  punct_group : regex
}.

(** The tuple [findall] gives for one match: the text of each group, the
    empty string for a group that did not take part. *)
Definition groups := (str * str * str)%type.

(** The text between the start of [s] and the start of its suffix [rest]. *)
Definition matched (s rest : str) : str := firstn (length s - length rest) s.

(** A match of the pattern at the start of [s].  [must_advance] is the
    scanner's flag that refuses an empty match right after an empty match. *)
Definition match_here (p : words_re) (must_advance : bool) (s : str)
  : option (groups * str) :=
  let k := fun rest =>
    if (must_advance && (length rest =? length s))%bool then None else Some rest in
  match exec (word_group p) s k with
  | Some rest => Some ((matched s rest, [], []), rest)
  | None =>
      match exec (unchanged_group p) s k with
      | Some rest => Some (([], matched s rest, []), rest)
      | None =>
          match exec (punct_group p) s k with
          | Some rest => Some (([], [], matched s rest), rest)
          | None => None
          end
      end
  end.

(** [pattern.search]: the first position, from the left, with a match. *)
Fixpoint search (p : words_re) (must_advance : bool) (s : str)
  : option (groups * str) :=
  match match_here p must_advance s with
  | Some m => Some m
  | None =>
      match s with
      | [] => None
      | _ :: s' => search p false s'
      end
  end.

(** The loop of [pattern.findall]: search, record the groups, go on from
    the end of the match. *)
Fixpoint findall_loop (p : words_re) (fuel : nat) (must_advance : bool) (s : str)
  : list groups :=
  match fuel with
  | O => []
  | S fuel' =>
      match search p must_advance s with
      | None => []
      | Some (g, rest) =>
          let '(w, u, x) := g in
          let empty := (length (w ++ u ++ x) =? 0) in
          g :: findall_loop p fuel' empty rest
      end
  end.

(** [pattern.findall(s)]: after an empty match the loop goes on with the
    flag set, after any other with a shorter text, so twice the length of
    the text, and two, bounds its turns. *)
Definition findall (p : words_re) (s : str) : list groups :=
  findall_loop p (2 * length s + 2) false s.

(** ** Module constants *)

(** [_synoglyphs], derived from LJSpeech. *)
Definition _synoglyphs : list (char * list char) :=
  [ (APOSTROPHE, [RIGHT_SINGLE_QUOTATION_MARK]);
    (DOUBLE_QUOTE, [RIGHT_DOUBLE_QUOTATION_MARK; LEFT_DOUBLE_QUOTATION_MARK]) ].

(** A [dict] as an association list with one entry per key. *)
Fixpoint dict_set (k v : char) (d : list (char * char)) : list (char * char) :=
  match d with
  | [] => [(k, v)]
  | (k', v') :: d' => if eqc k k' then (k, v) :: d' else (k', v') :: dict_set k v d'
  end.

Fixpoint dict_get (k : char) (d : list (char * char)) : option char :=
  match d with
  | [] => None
  | (k', v) :: d' => if eqc k k' then Some v else dict_get k d'
  end.

(** [{g: asc for asc, glyphs in _synoglyphs.items() for g in glyphs}] *)
Definition SYNOGLYPH2ASCII : list (char * char) :=
  fold_left
    (fun d '(asc, glyphs) => fold_left (fun d g => dict_set g asc d) glyphs d)
    _synoglyphs [].

(** [LATIN_ALPHABET_BASIC = "A-Za-z"] *)
Definition LATIN_ALPHABET_BASIC (c : char) : bool :=
  (in_range (chr "A") (chr "Z") c || in_range (chr "a") (chr "z") c)%bool.

(** [ACCENTED_CHARS]: U+00C0-U+00D6, U+00D8-U+00F6, U+00F8-U+00FF. *)
Definition ACCENTED_CHARS (c : char) : bool :=
  (in_range 192%N 214%N c || in_range 216%N 246%N c || in_range 248%N 255%N c)%bool.

Definition LATIN_CHARS_ALL (c : char) : bool :=
  (LATIN_ALPHABET_BASIC c || ACCENTED_CHARS c)%bool.

(** The pattern both constants instantiate, for an alphabet [L] given as
    the text of a character class.  Its three groups, joined by [|]:
    - words: [L]+ followed by any number of ( [L, hyphen, apostrophe]* [L]+ );
    - unchanged: a pipe, [^|]*, a pipe;
    - punctuation and spaces: [^L|]+ . *)
Definition words_pattern (L : char -> bool) : words_re :=
  let L_hyphen_apostrophe :=
    fun c => (L c || eqc c HYPHEN || eqc c APOSTROPHE)%bool in
  let not_pipe := fun c => negb (eqc c PIPE) in
  let not_L_pipe := fun c => negb (L c || eqc c PIPE) in
  {| word_group :=
       Cat (Plus (Class L))
           (Star (Cat (Star (Class L_hyphen_apostrophe)) (Plus (Class L))));
     unchanged_group :=
       Cat (Class (eqc PIPE)) (Cat (Star (Class not_pipe)) (Class (eqc PIPE)));
     punct_group := Plus (Class not_L_pipe) |}.

Definition _WORDS_RE_EN : words_re := words_pattern LATIN_ALPHABET_BASIC.
Definition _WORDS_RE_ANY_LOCALE : words_re := words_pattern LATIN_CHARS_ALL.

(** ** The tokenizer *)

(** The exceptions the module raises or catches; [OtherError] stands for
    any other exception of the external syllabifier. *)
Inductive exn :=
| ValueError (word : groups)
| ImportError (msg : string)
| NameError (name : string)
| OtherError (msg : string).

(** A call returns or raises. *)
Inductive result (A : Type) :=
| Ok (a : A)
| Raise (e : exn).
Arguments Ok {A} a.
Arguments Raise {A} e.

(** A token: its pieces and the flag [without_changes]. *)
Definition token := (list str * bool)%type.

(** [s != ''] *)
Definition nonempty (s : str) : bool :=
  match s with [] => false | _ => true end.

(** [_word_tokenize(words, is_lower)] *)
Fixpoint _word_tokenize (U : unicode) (words : list groups) (is_lower : bool)
  : result (list token) :=
  match words with
  | [] => Ok []
  | word :: words' =>
      let '(maybe_word, maybe_without_changes, maybe_punct) := word in
      let tok :=
        if nonempty maybe_word then
          Ok (if is_lower then [lower U maybe_word] else [maybe_word], false)
        else if nonempty maybe_punct then
          Ok ([maybe_punct], false)
        else if nonempty maybe_without_changes then
          Ok (split SPACE (slice maybe_without_changes 1 (-1)), true)
        else Raise (ValueError word) in
      match tok with
      | Raise e => Raise e
      | Ok t =>
          match _word_tokenize U words' is_lower with
          | Raise e => Raise e
          | Ok result => Ok (t :: result)
          end
      end
  end.

(** [english_word_tokenize(text)] *)
Definition english_word_tokenize (U : unicode) (text : str) : result (list token) :=
  let words := findall _WORDS_RE_EN text in
  _word_tokenize U words true.

(** [any_locale_word_tokenize(text)] *)
Definition any_locale_word_tokenize (U : unicode) (text : str) : result (list token) :=
  let words := findall _WORDS_RE_ANY_LOCALE text in
  _word_tokenize U words false.

(** ** Text preprocessing *)

(** The third line of [english_text_preprocessing]: each character that is
    a key of [SYNOGLYPH2ASCII] is replaced by its value. *)
Definition fold_quotes (text : str) : str :=
  map (fun char =>
         match dict_get char SYNOGLYPH2ASCII with
         | None => char
         | Some asc => asc
         end) text.

(** [english_text_preprocessing(text, lower=True)]; the flag is [lower_]
    here, [lower] being the string method. *)
Definition english_text_preprocessing (U : unicode) (text : str) (lower_ : bool) : str :=
  let text := filter (fun char => negb (category_Mn U char)) (normalize_NFD U text) in
  let text := fold_quotes text in
  if lower_ then lower U text else text.

(** [normalize_unicode_text(text)] *)
Definition normalize_unicode_text (U : unicode) (text : str) : str :=
  if negb (is_normalized_NFC U text) then normalize_NFC U text else text.

(** [any_locale_text_preprocessing(text)] *)
Definition any_locale_text_preprocessing (U : unicode) (text : str) : str :=
  map (fun c => if char_in c [RIGHT_SINGLE_QUOTATION_MARK] then APOSTROPHE else c)
      (normalize_unicode_text U text).

(** [spanish_text_preprocessing] and [chinese_text_preprocessing] *)
Definition spanish_text_preprocessing (U : unicode) (text : str) : str := lower U text.
Definition chinese_text_preprocessing (U : unicode) (text : str) : str := lower U text.

(** ** The heuristic clusterer *)

(** [string.punctuation] and [string.whitespace] *)
Definition punctuation : str :=
  str_of "!" ++ [DOUBLE_QUOTE] ++ str_of "#$%&'()*+,-./:;<=>?@[\]^_`{|}~".
Definition whitespace : str := [32; 9; 10; 13; 11; 12]%N.

(** The test that makes the loop [continue]. *)
Definition skipped (U : unicode) (char : char) : bool :=
  (isdigit U char || char_in char punctuation || char_in char whitespace)%bool.

(** The [for i, char in enumerate(text)] loop, from index [i] on, with the
    two variables it updates. *)
Fixpoint cluster_loop (U : unicode) (lang_symbols : list char) (text : str) (i : nat)
    (clusters : list str) (current_cluster : str) : list str * str :=
  match text with
  | [] => (clusters, current_cluster)
  | char :: text' =>
      if skipped U char then
        cluster_loop U lang_symbols text' (S i) clusters current_cluster
      else if i =? 0 then
        cluster_loop U lang_symbols text' (S i) clusters (current_cluster ++ [char])
      else if char_in char lang_symbols then
        cluster_loop U lang_symbols text' (S i) clusters (current_cluster ++ [char])
      else
        cluster_loop U lang_symbols text' (S i) (clusters ++ [current_cluster]) [char]
  end.

(** [generate_grapheme_clusters(text, lang_symbols)], of the extraction
    script. *)
Definition generate_grapheme_clusters (U : unicode) (text : str) (lang_symbols : list char)
  : list str :=
  let '(clusters, current_cluster) := cluster_loop U lang_symbols text 0 [] [] in
  clusters ++ [current_cluster].

(** [indic_syllable_text_processing(text, lang_symbols)]: the same loop,
    run on the preprocessed text. *)
Definition indic_syllable_text_processing (U : unicode) (text : str) (lang_symbols : list char)
  : list str :=
  let text := any_locale_text_preprocessing U text in
  let '(clusters, current_cluster) := cluster_loop U lang_symbols text 0 [] [] in
  clusters ++ [current_cluster].

(** ** The linguistic clusterer *)

(** [text.split()]: the words between runs of whitespace. *)
Fixpoint split_whitespace (U : unicode) (text : str) (word : str) : list str :=
  match text with
  | [] => if nonempty word then [word] else []
  | c :: text' =>
      if isspace U c then
        (if nonempty word then [word] else []) ++ split_whitespace U text' []
      else split_whitespace U text' (word ++ [c])
  end.

(** What the function finds outside itself: the name [syllabifier], bound
    only when [from indicnlp.syllable import syllabifier] succeeded, and
    the process environment. *)
Record world := {
  syllabifier : option (str -> string -> result (list str));
  INDIC_RESOURCES_ROOT : option string
}.

(** The body of the [try]: the syllables gathered so far and the
    exception that stopped the loop, if one did. *)
Fixpoint syllabify_loop (W : world) (lang_id : string) (n : nat) (words : list str)
    (i : nat) (syllables : list str) : list str * option exn :=
  match words with
  | [] => (syllables, None)
  | word :: words' =>
      match syllabifier W with
      | None => (syllables, Some (NameError "syllabifier"))
      | Some orthographic_syllabify_improved =>
          match orthographic_syllabify_improved word lang_id with
          | Raise e => (syllables, Some e)
          | Ok sy =>
              let syllables := syllables ++ sy in
              let syllables :=
                syllables ++ (if negb (i =? n - 1) then [[SPACE]] else []) in
              syllabify_loop W lang_id n words' (S i) syllables
          end
      end
  end.

Definition indic_nlp_not_installed : string :=
  "The indic_nlp library is not installed. Please install the indic_nlp library to use this function.".

(** [indic_syllable_text_processing_improved(text, lang_id)] *)
Definition indic_syllable_text_processing_improved (U : unicode) (W : world)
    (text : str) (lang_id : string) : result (list str) :=
  let text := any_locale_text_preprocessing U text in
  let words := split_whitespace U text [] in
  match syllabify_loop W lang_id (length words) words 0 [] with
  | (syllables, None) => Ok syllables
  | (syllables, Some (NameError name)) =>
      if String.eqb name "syllabifier" then Raise (ImportError indic_nlp_not_installed)
      else Ok syllables
  | (_, Some e) => Raise e
  end.

(** ** A fragment of the interpreter's tables

    Enough of Unicode 14 (Python 3.11) to run the functions on the texts of
    the examples: [isdigit] and [isspace] are the full tables; [lower] is
    [str.lower] on U+0000-U+00FF and leaves other code points alone; of the
    canonical compositions only o + U+0308 (combining diaeresis) = U+00F6 is
    kept, the one the docstring of [normalize_unicode_text] describes; of
    the nonspacing marks only the block U+0300-U+036F. *)

Definition in_ranges (ranges : list (N * N)) (c : char) : bool :=
  existsb (fun '(lo, hi) => in_range lo hi c) ranges.

Definition isdigit_ranges : list (N * N) :=
  [(48, 57); (178, 179); (185, 185); (1632, 1641); (1776, 1785); (1984, 1993);
   (2406, 2415); (2534, 2543); (2662, 2671); (2790, 2799); (2918, 2927);
   (3046, 3055); (3174, 3183); (3302, 3311); (3430, 3439); (3558, 3567);
   (3664, 3673); (3792, 3801); (3872, 3881); (4160, 4169); (4240, 4249);
   (4969, 4977); (6112, 6121); (6160, 6169); (6470, 6479); (6608, 6618);
   (6784, 6793); (6800, 6809); (6992, 7001); (7088, 7097); (7232, 7241);
   (7248, 7257); (8304, 8304); (8308, 8313); (8320, 8329); (9312, 9320);
   (9332, 9340); (9352, 9360); (9450, 9450); (9461, 9469); (9471, 9471);
   (10102, 10110); (10112, 10120); (10122, 10130); (42528, 42537);
   (43216, 43225); (43264, 43273); (43472, 43481); (43504, 43513);
   (43600, 43609); (44016, 44025); (65296, 65305); (66720, 66729);
   (68160, 68163); (68912, 68921); (69216, 69224); (69714, 69722);
   (69734, 69743); (69872, 69881); (69942, 69951); (70096, 70105);
   (70384, 70393); (70736, 70745); (70864, 70873); (71248, 71257);
   (71360, 71369); (71472, 71481); (71904, 71913); (72016, 72025);
   (72784, 72793); (73040, 73049); (73120, 73129); (92768, 92777);
   (92864, 92873); (93008, 93017); (120782, 120831); (123200, 123209);
   (123632, 123641); (125264, 125273); (127232, 127242); (130032, 130041)]%N.

Definition isspace_ranges : list (N * N) :=
  [(9, 13); (28, 32); (133, 133); (160, 160); (5760, 5760); (8192, 8202);
   (8232, 8233); (8239, 8239); (8287, 8287); (12288, 12288)]%N.

Definition lower_latin1 (c : char) : char :=
  if in_ranges [(65, 90); (192, 214); (216, 222)]%N c then (c + 32)%N else c.

Definition COMBINING_DIAERESIS : char := 776%N.   (* U+0308 *)
Definition O_WITH_DIAERESIS : char := 246%N.      (* U+00F6 *)

Definition compose_pair (base mark : char) : option char :=
  if (eqc base (chr "o") && eqc mark COMBINING_DIAERESIS)%bool
  then Some O_WITH_DIAERESIS else None.

(** NFC and NFD of the fragment: one pass, left to right. *)
Fixpoint compose (s : str) : str :=
  match s with
  | base :: ((mark :: s') as t) =>
      match compose_pair base mark with
      | Some c => c :: compose s'
      | None => base :: compose t
      end
  | _ => s
  end.

Fixpoint decompose (s : str) : str :=
  match s with
  | [] => []
  | c :: s' =>
      if eqc c O_WITH_DIAERESIS then chr "o" :: COMBINING_DIAERESIS :: decompose s'
      else c :: decompose s'
  end.

Definition str_eqb (a b : str) : bool :=
  if list_eq_dec N.eq_dec a b then true else false.

Definition python311 : unicode :=
  {| normalize_NFC := compose;
     is_normalized_NFC := fun s => str_eqb (compose s) s;
     normalize_NFD := decompose;
     category_Mn := in_range 768%N 879%N;
     isdigit := in_ranges isdigit_ranges;
     isspace := in_ranges isspace_ranges;
     lower := map lower_latin1 |}.

(** * Vocabulary of the properties *)

(** The strings a pattern denotes; an iteration of a repetition is never
    empty, as in [repeat_greedy]. *)
Inductive lang : regex -> str -> Prop :=
| lang_class p c : p c = true -> lang (Class p) [c]
| lang_cat r1 r2 u v : lang r1 u -> lang r2 v -> lang (Cat r1 r2) (u ++ v)
| lang_star_nil r : lang (Star r) []
| lang_star_more r u v :
    lang r u -> u <> [] -> lang (Star r) v -> lang (Star r) (u ++ v).

#[local] Hint Constructors lang : core.

(** What [exec r] promises, stated for any matcher [body] so that the
    repetition can be treated on its own. *)
Definition sound (r : regex) (body : str -> (str -> option str) -> option str) :=
  forall s k x, body s k = Some x ->
    exists u v, s = u ++ v /\ lang r u /\ k v = Some x.

Definition complete (r : regex) (body : str -> (str -> option str) -> option str) :=
  forall u, lang r u -> forall v k, k v <> None -> body (u ++ v) k <> None.

(** The text of a match. *)
Definition whole (g : groups) : str := let '(w, u, x) := g in w ++ u ++ x.

(** Every character of a string of the language passes one of the
    classes of the pattern. *)
Fixpoint classes_within (q : char -> Prop) (r : regex) : Prop :=
  match r with
  | Class p => forall c, p c = true -> q c
  | Cat r1 r2 => classes_within q r1 /\ classes_within q r2
  | Star r1 => classes_within q r1
  end.

(** The shape of one match of a words pattern. *)
Inductive token_match : groups -> Prop :=
| match_word w : w <> [] -> ~ In PIPE w -> token_match (w, [], [])
| match_unchanged mid : ~ In PIPE mid -> token_match ([], PIPE :: mid ++ [PIPE], [])
| match_punct x : x <> [] -> ~ In PIPE x -> token_match ([], [], x).

(** How the matches of [findall] lie in the text: one after the other, from
    left to right, with nothing between them but a pipe that no later pipe
    closes. *)
Inductive tiles : str -> list groups -> Prop :=
| tiles_end : tiles [] []
| tiles_lone_pipe rest gs :
    ~ In PIPE rest -> tiles rest gs -> tiles (PIPE :: rest) gs
| tiles_match g rest gs :
    token_match g -> tiles rest gs -> tiles (whole g ++ rest) (g :: gs).

(** The text without its pipe characters. *)
Definition remove_pipes (text : str) : str :=
  filter (fun c => negb (eqc c PIPE)) text.

(** The pipes of a text pair up. *)
Definition balanced (text : str) : bool :=
  Nat.even (count_occ N.eq_dec text PIPE).

(** The pieces of a token joined by one space, and the tokens in a row. *)
Definition token_text (t : token) : str := join [SPACE] (fst t).
Definition rejoin (tokens : list token) : str := concat (map token_text tokens).

(** [equal_up_to f s t]: [t] is [s] with some stretches [w] rewritten to
    [f w]. *)
Inductive equal_up_to (f : str -> str) : str -> str -> Prop :=
| up_to_nil : equal_up_to f [] []
| up_to_same u s t : equal_up_to f s t -> equal_up_to f (u ++ s) (u ++ t)
| up_to_changed w s t : equal_up_to f s t -> equal_up_to f (w ++ s) (f w ++ t).

(** The text of Scenario A. *)
Definition scenario_A : str := str_of "Hello, |NVIDIA unchanged|!".

(** What the loop keeps of a text. *)
Definition retained (U : unicode) (text : str) : str :=
  filter (fun char => negb (skipped U char)) text.

(** The text of Scenario C, with its three typographic quotes, and its
    ASCII spelling. *)
Definition scenario_C : str :=
  str_of "It" ++ [RIGHT_SINGLE_QUOTATION_MARK] ++ str_of "s a "
  ++ [LEFT_DOUBLE_QUOTATION_MARK] ++ str_of "test" ++ [RIGHT_DOUBLE_QUOTATION_MARK].

Definition scenario_C_folded : str :=
  str_of "It's a " ++ [DOUBLE_QUOTE] ++ str_of "test" ++ [DOUBLE_QUOTE].

(** A process in which [indicnlp] could not be imported and
    [INDIC_RESOURCES_ROOT] is not set. *)
Definition no_indicnlp : world :=
  {| syllabifier := None; INDIC_RESOURCES_ROOT := None |}.

(** The three typographic quotes: the keys of [SYNOGLYPH2ASCII]. *)
Definition synoglyph (c : char) : bool :=
  match dict_get c SYNOGLYPH2ASCII with Some _ => true | None => false end.

(** The all-empty tuple of groups. *)
Definition empty_match : groups := ([], [], []).

(** Two tokens that differ at most by the lowercasing of a word. *)
Definition same_but_lowered (U : unicode) (t t' : token) : Prop :=
  snd t = snd t' /\
  (t = t' \/ exists w, t = ([w], false) /\ t' = ([lower U w], false)).

(** The token [_word_tokenize] makes of one match that is not empty. *)
Definition token_of (U : unicode) (is_lower : bool) (g : groups) : token :=
  let '(maybe_word, maybe_without_changes, maybe_punct) := g in
  if nonempty maybe_word then
    (if is_lower then [lower U maybe_word] else [maybe_word], false)
  else if nonempty maybe_punct then ([maybe_punct], false)
  else (split SPACE (slice maybe_without_changes 1 (-1)), true).

(** The number of protected tokens. *)
Definition protected_count (tokens : list token) : nat :=
  length (filter (fun t : token => snd t) tokens).

(** [p] is a stretch of [text]. *)
Definition stretch_of (p text : str) : Prop :=
  exists before after, text = before ++ p ++ after.

(** A word of the alphabet [L]: letters, hyphens and apostrophes, the
    first and the last a letter. *)
Definition word_shape (L : char -> bool) (w : str) : bool :=
  match w with
  | [] => false
  | a :: _ =>
      (L a && L (last w a)
       && forallb (fun c => L c || eqc c HYPHEN || eqc c APOSTROPHE) w)%bool
  end.

(** A run of characters that are neither letters of [L] nor pipes. *)
Definition separator_shape (L : char -> bool) (x : str) : bool :=
  (nonempty x && forallb (fun c => negb (L c || eqc c PIPE)) x)%bool.

(** The text of a group of a match is a string of that group's language. *)
Definition group_in_lang (p : words_re) (g : groups) : Prop :=
  exists u,
    (g = (u, [], []) /\ lang (word_group p) u)
    \/ (g = ([], u, []) /\ lang (unchanged_group p) u)
    \/ (g = ([], [], u) /\ lang (punct_group p) u).

(** [u] ends with a character of [L]. *)
Definition ends_with (L : char -> bool) (u : str) : Prop :=
  exists v b, u = v ++ [b] /\ L b = true.

(** The first character of [s] is in the class [q]. *)
Definition starts_with (q : char -> bool) (s : str) : bool :=
  match s with c :: _ => q c | [] => false end.

(** The match of a word, and the match of a separator. *)
Definition is_word (g : groups) : bool := nonempty (fst (fst g)).
Definition is_separator (g : groups) : bool := nonempty (snd g).

(** No two words in a row and no two separators in a row. *)
Fixpoint alternates (gs : list groups) : bool :=
  match gs with
  | g :: ((g' :: _) as rest) =>
      (negb (is_word g && is_word g') && negb (is_separator g && is_separator g')
       && alternates rest)%bool
  | _ => true
  end.

(** How the heuristic clusters are cut: no skipped character in a cluster,
    only combining symbols after the first character of a cluster, and
    every cluster after the first opened by a character that is not a
    combining symbol. *)
Definition well_cut (U : unicode) (lang_symbols : list char) (clusters : list str) : Prop :=
  Forall (fun cluster =>
            Forall (fun c => skipped U c = false) cluster /\
            Forall (fun c => char_in c lang_symbols = true) (tl cluster)) clusters /\
  Forall (fun cluster =>
            exists c rest, cluster = c :: rest /\ char_in c lang_symbols = false)
         (tl clusters).

(** The characters that open a cluster past the first index. *)
Definition opens_cluster (U : unicode) (lang_symbols : list char) (c : char) : bool :=
  (negb (skipped U c) && negb (char_in c lang_symbols))%bool.

(** The syllables of the words in order, one [" "] between the syllables
    of two words. *)
Fixpoint spaced (syllables : list (list str)) : list str :=
  match syllables with
  | [] => []
  | [sy] => sy
  | sy :: rest => sy ++ [[SPACE]] ++ spaced rest
  end.

(** The syllables the library gives for a word, none if it raises. *)
Definition syllables_of (f : str -> string -> result (list str)) (lang_id : string)
    (word : str) : list str :=
  match f word lang_id with Ok sy => sy | Raise _ => [] end.

(** Two patterns of the same build whose classes agree on the characters
    that satisfy [q]. *)
Inductive same_on (q : char -> Prop) : regex -> regex -> Prop :=
| same_class p p' : (forall c, q c -> p c = p' c) -> same_on q (Class p) (Class p')
| same_cat r1 r1' r2 r2' :
    same_on q r1 r1' -> same_on q r2 r2' -> same_on q (Cat r1 r2) (Cat r1' r2')
| same_star r r' : same_on q r r' -> same_on q (Star r) (Star r').

(** No character of the text is an accented Latin letter. *)
Definition unaccented (text : str) : Prop :=
  Forall (fun c => ACCENTED_CHARS c = false) text.

(** The text a match stands for once tokenized: the word, rewritten by
    [f], or else the protected span without its pipes, or the separator. *)
Definition spelled (f : str -> str) (g : groups) : str :=
  let '(w, u, x) := g in
  if nonempty w then f w else remove_pipes u ++ x.

(** The tokens of one match without and with lowercasing: those of the
    word and of the lowercased word, or else one and the same token. *)
Definition lowered_pair (U : unicode) (g : groups) (t t' : token) : Prop :=
  if is_word g
  then t = ([fst (fst g)], false) /\ t' = ([lower U (fst (fst g))], false)
  else t = t'.

(** [lowered_pair], match by match. *)
Inductive lowers_words (U : unicode) : list groups -> list token -> list token -> Prop :=
| lowers_nil : lowers_words U [] [] []
| lowers_cons g gs t t' ts ts' :
    lowered_pair U g t t' -> lowers_words U gs ts ts' ->
    lowers_words U (g :: gs) (t :: ts) (t' :: ts').

(** * Properties *)

(** ** Strings *)

Lemma eqc_eq (a b : char) : eqc a b = true <-> a = b.
Proof. apply N.eqb_eq. Qed.

Lemma eqc_neq (a b : char) : eqc a b = false <-> a <> b.
Proof. apply N.eqb_neq. Qed.

Lemma char_in_In (c : char) (s : str) : char_in c s = true <-> In c s.
Proof.
  unfold char_in. rewrite existsb_exists. split.
  - intros (x & Hx & E). apply eqc_eq in E. now subst.
  - intros H. exists c. split; [assumption | now apply eqc_eq].
Qed.

Lemma split_not_nil (sep : char) (s : str) : split sep s <> [].
Proof.
  destruct s as [|c s]; simpl; [discriminate|].
  destruct (eqc c sep); [discriminate|].
  destruct (split sep s); discriminate.
Qed.

(** Splitting on a separator and joining with it gives the string back. *)
Lemma join_split (sep : char) (s : str) : join [sep] (split sep s) = s.
Proof.
  induction s as [|c s IH]; simpl; [reflexivity|].
  destruct (eqc c sep) eqn:E.
  - apply eqc_eq in E. subst c.
    destruct (split sep s) as [|p ps] eqn:Es; [now apply split_not_nil in Es|].
    simpl. now rewrite <- IH.
  - destruct (split sep s) as [|p ps] eqn:Es; [now apply split_not_nil in Es|].
    rewrite <- IH. destruct ps; reflexivity.
Qed.

(** [split] keeps every piece: one more piece than separators. *)
Lemma split_length (sep : char) (s : str) :
  length (split sep s) = S (count_occ N.eq_dec s sep).
Proof.
  induction s as [|c s IH]; simpl; [reflexivity|].
  destruct (eqc c sep) eqn:E.
  - apply eqc_eq in E. subst c. simpl. rewrite IH.
    destruct (N.eq_dec sep sep); congruence.
  - apply eqc_neq in E.
    destruct (N.eq_dec c sep); [contradiction|].
    destruct (split sep s) as [|q qs] eqn:Es; [now apply split_not_nil in Es|].
    simpl in *. exact IH.
Qed.

(** [s[1:-1]] drops the first and the last character. *)
Lemma slice_1_m1 (s : str) : slice s 1 (-1) = removelast (tl s).
Proof.
  destruct s as [|c s]; [reflexivity|].
  unfold slice, slice_bound. cbn [tl length].
  replace (1 <? 0)%Z with false by reflexivity.
  replace (-1 <? 0)%Z with true by reflexivity.
  rewrite Z.min_l by lia. rewrite Z.max_r by lia.
  replace (Z.to_nat 1) with 1 by reflexivity. cbn [skipn].
  replace (Z.to_nat (-1 + Z.of_nat (S (length s)) - 1)) with (pred (length s)) by lia.
  symmetry. apply removelast_firstn_len.
Qed.

Lemma slice_between (c d : char) (mid : str) :
  slice (c :: mid ++ [d]) 1 (-1) = mid.
Proof. rewrite slice_1_m1. simpl. apply removelast_last. Qed.

(** ** The matcher against the language of a pattern *)

Lemma orelse_some {A} (a b : option A) (x : A) :
  orelse a b = Some x -> a = Some x \/ (a = None /\ b = Some x).
Proof. destruct a; simpl; auto. Qed.

Lemma orelse_not_none {A} (a b : option A) :
  a <> None \/ b <> None -> orelse a b <> None.
Proof. destruct a; simpl; [intros _; discriminate | intros [H|H]; congruence]. Qed.

Lemma repeat_greedy_sound r body :
  sound r body ->
  forall n s k x, repeat_greedy body k n s = Some x ->
    exists u v, s = u ++ v /\ lang (Star r) u /\ k v = Some x.
Proof.
  intros Hb n. induction n as [|n IH]; intros s k x H; simpl in H.
  - exists [], s. auto.
  - apply orelse_some in H. destruct H as [H | [_ H]].
    + apply Hb in H. destruct H as (u & v & -> & Hu & H).
      destruct (length v <? length (u ++ v)) eqn:E; [|discriminate].
      apply Nat.ltb_lt in E. rewrite length_app in E.
      apply IH in H. destruct H as (u' & v' & -> & Hu' & H).
      exists (u ++ u'), v'. rewrite app_assoc. repeat split; auto.
      apply lang_star_more; auto. intros ->. simpl in E. lia.
    + exists [], s. auto.
Qed.

Lemma repeat_greedy_complete r body :
  complete r body ->
  forall u, lang (Star r) u ->
  forall n v k, length (u ++ v) <= n -> k v <> None ->
    repeat_greedy body k n (u ++ v) <> None.
Proof.
  intros Hb u Hu. remember (Star r) as sr eqn:Esr.
  induction Hu as [ | | r0 | r0 u w Hu _ Hne Hw IH]; try discriminate;
    injection Esr as ->; intros n v k Hn Hk.
  - destruct n; simpl; [assumption|]. apply orelse_not_none. now right.
  - destruct n as [|n].
    + destruct u; [congruence | simpl in Hn; lia].
    + simpl. apply orelse_not_none. left.
      rewrite <- app_assoc. apply Hb; [assumption|].
      rewrite app_assoc.
      replace (length (w ++ v) <? length ((u ++ w) ++ v)) with true.
      * apply IH; [reflexivity | | assumption].
        rewrite !length_app in *. destruct u; [congruence|]. simpl in Hn. lia.
      * symmetry. apply Nat.ltb_lt. rewrite !length_app.
        destruct u; [congruence|]. simpl. lia.
Qed.

Lemma exec_sound r : sound r (exec r).
Proof.
  induction r as [p | r1 IH1 r2 IH2 | r IH]; intros s k x H; simpl in H.
  - destruct s as [|c s]; [discriminate|].
    destruct (p c) eqn:E; [|discriminate].
    exists [c], s. auto.
  - apply IH1 in H. destruct H as (u & v & -> & Hu & H).
    apply IH2 in H. destruct H as (u' & v' & -> & Hu' & H).
    exists (u ++ u'), v'. rewrite app_assoc. auto.
  - eapply repeat_greedy_sound; eauto.
Qed.

Lemma exec_complete r : complete r (exec r).
Proof.
  induction r as [p | r1 IH1 r2 IH2 | r IH]; intros u Hu v k Hk.
  - inversion Hu; subst. simpl. now rewrite H0.
  - inversion Hu; subst. simpl. rewrite <- app_assoc.
    apply IH1; [assumption|]. now apply IH2.
  - simpl. now apply repeat_greedy_complete with (r := r).
Qed.

Lemma matched_app (u rest : str) : matched (u ++ rest) rest = u.
Proof.
  unfold matched. rewrite length_app.
  replace (length u + length rest - length rest) with (length u) by lia.
  rewrite firstn_app, Nat.sub_diag, firstn_all. simpl. apply app_nil_r.
Qed.

(** A match found with the flag off is a string of one of the three
    languages, in the slot of its group. *)
Lemma match_here_some p s g rest :
  match_here p false s = Some (g, rest) ->
  exists u, s = u ++ rest /\
    ((g = (u, [], []) /\ lang (word_group p) u)
     \/ (g = ([], u, []) /\ lang (unchanged_group p) u)
     \/ (g = ([], [], u) /\ lang (punct_group p) u)).
Proof.
  unfold match_here. cbn [andb].
  destruct (exec (word_group p) s _) as [r1|] eqn:E1.
  { intros [= <- <-]. apply exec_sound in E1.
    destruct E1 as (u & v & -> & Hu & [= ->]).
    exists u. rewrite matched_app. auto. }
  destruct (exec (unchanged_group p) s _) as [r2|] eqn:E2.
  { intros [= <- <-]. apply exec_sound in E2.
    destruct E2 as (u & v & -> & Hu & [= ->]).
    exists u. rewrite matched_app. auto. }
  destruct (exec (punct_group p) s _) as [r3|] eqn:E3; [|discriminate].
  intros [= <- <-]. apply exec_sound in E3.
  destruct E3 as (u & v & -> & Hu & [= ->]).
  exists u. rewrite matched_app. auto.
Qed.

(** No match: no prefix of the text is in any of the three languages. *)
Lemma match_here_none p s :
  match_here p false s = None ->
  forall u v, s = u ++ v ->
    ~ lang (word_group p) u /\ ~ lang (unchanged_group p) u /\ ~ lang (punct_group p) u.
Proof.
  unfold match_here. cbn [andb]. intros H u v ->.
  destruct (exec (word_group p) _ _) eqn:E1; [discriminate|].
  destruct (exec (unchanged_group p) _ _) eqn:E2; [discriminate|].
  destruct (exec (punct_group p) _ _) eqn:E3; [discriminate|].
  repeat split; intros Hu.
  - eapply exec_complete in E1; eauto. discriminate.
  - eapply exec_complete in E2; eauto. discriminate.
  - eapply exec_complete in E3; eauto. discriminate.
Qed.

Lemma lang_Forall q r u : classes_within q r -> lang r u -> Forall q u.
Proof.
  intros Hq Hu. induction Hu; simpl in Hq.
  - auto.
  - destruct Hq. apply Forall_app. auto.
  - constructor.
  - apply Forall_app. auto.
Qed.

Lemma lang_star_class (p : char -> bool) (u : str) :
  Forall (fun c => p c = true) u -> lang (Star (Class p)) u.
Proof.
  induction 1 as [|c u Hc _ IH]; [constructor|].
  change (c :: u) with ([c] ++ u). apply lang_star_more; auto. discriminate.
Qed.

Lemma lang_plus_one (p : char -> bool) (c : char) :
  p c = true -> lang (Plus (Class p)) [c].
Proof.
  intros H. change [c] with ([c] ++ []). unfold Plus. auto.
Qed.

Lemma lang_cat_class_not_nil p r u : lang (Cat (Class p) r) u -> u <> [].
Proof. intros H. inversion H; subst. inversion H2; subst. discriminate. Qed.

Lemma not_In_Forall (a : char) (u : str) :
  ~ In a u <-> Forall (fun c => c <> a) u.
Proof.
  rewrite Forall_forall. split.
  - intros H c Hc ->. auto.
  - intros H Ha. now apply (H a).
Qed.

Lemma in_split_first (a : char) (l : str) :
  In a l -> exists l1 l2, l = l1 ++ a :: l2 /\ ~ In a l1.
Proof.
  induction l as [|b l IH]; [contradiction|]. intros H.
  destruct (N.eq_dec b a) as [->|Hb].
  - exists [], l. auto.
  - destruct H as [H|H]; [contradiction|].
    destruct (IH H) as (l1 & l2 & -> & Hn).
    exists (b :: l1), l2. split; [reflexivity|].
    intros [E|E]; auto.
Qed.

Section WordsPattern.

Variable L : char -> bool.
Hypothesis L_not_pipe : L PIPE = false.

Let P := words_pattern L.

Lemma lang_word_group u :
  lang (word_group P) u -> u <> [] /\ ~ In PIPE u.
Proof.
  intros H. split.
  - inversion H; subst. apply lang_cat_class_not_nil in H2.
    destruct u0; [congruence | discriminate].
  - apply not_In_Forall. revert H. apply lang_Forall. simpl.
    assert (HL : forall c, L c = true -> c <> PIPE) by (intros c Hc ->; congruence).
    assert (HX : forall c, (L c || eqc c HYPHEN || eqc c APOSTROPHE)%bool = true
                           -> c <> PIPE).
    { intros c Hc ->. rewrite L_not_pipe in Hc. discriminate. }
    tauto.
Qed.

Lemma lang_unchanged_group u :
  lang (unchanged_group P) u ->
  exists mid, u = PIPE :: mid ++ [PIPE] /\ ~ In PIPE mid.
Proof.
  intros H. inversion H as [ | ? ? a b Ha Hb | | ]; subst.
  inversion Ha as [? c Hc | | | ]; subst.
  inversion Hb as [ | ? ? mid d Hmid Hd | | ]; subst.
  inversion Hd as [? e He | | | ]; subst.
  apply eqc_eq in Hc, He. subst c e.
  exists mid. split; [reflexivity|].
  apply not_In_Forall. revert Hmid. apply lang_Forall. simpl.
  intros c Hc ->. discriminate.
Qed.

Lemma lang_punct_group u :
  lang (punct_group P) u -> u <> [] /\ ~ In PIPE u.
Proof.
  intros H. split.
  - now apply lang_cat_class_not_nil in H.
  - apply not_In_Forall. revert H. apply lang_Forall. simpl.
    assert (HX : forall c, negb (L c || eqc c PIPE) = true -> c <> PIPE).
    { intros c Hc ->. rewrite L_not_pipe in Hc. discriminate. }
    tauto.
Qed.

Lemma word_group_letter c : L c = true -> lang (word_group P) [c].
Proof.
  intros H. exact (lang_cat (lang_plus_one _ _ H) (lang_star_nil _)).
Qed.

Lemma punct_group_other c :
  L c = false -> c <> PIPE -> lang (punct_group P) [c].
Proof.
  intros H Hc. simpl. apply lang_plus_one.
  rewrite H. apply eqc_neq in Hc. now rewrite Hc.
Qed.

Lemma unchanged_group_span mid :
  ~ In PIPE mid -> lang (unchanged_group P) (PIPE :: mid ++ [PIPE]).
Proof.
  intros H. simpl. change (PIPE :: mid ++ [PIPE]) with ([PIPE] ++ mid ++ [PIPE]).
  apply lang_cat; [now constructor|].
  apply lang_cat; [|now constructor].
  apply lang_star_class. apply not_In_Forall in H.
  eapply Forall_impl; [|exact H]. intros c Hc. simpl in Hc.
  apply eqc_neq in Hc. now rewrite Hc.
Qed.

(** A match at the start of the text has the shape of a token. *)
Lemma match_here_token s g rest :
  match_here P false s = Some (g, rest) ->
  s = whole g ++ rest /\ token_match g.
Proof.
  intros H. apply match_here_some in H.
  destruct H as (u & -> & [[-> H] | [[-> H] | [-> H]]]).
  - apply lang_word_group in H. destruct H. split.
    + simpl. now rewrite app_nil_r.
    + now constructor.
  - apply lang_unchanged_group in H. destruct H as (mid & -> & H). split.
    + simpl. now rewrite app_nil_r.
    + now constructor.
  - apply lang_punct_group in H. destruct H. split.
    + reflexivity.
    + now constructor.
Qed.

(** The only position without a match is a pipe that no later pipe
    closes. *)
Lemma match_here_fails s :
  match_here P false s = None ->
  s = [] \/ exists rest, s = PIPE :: rest /\ ~ In PIPE rest.
Proof.
  intros H. destruct s as [|c s]; [now left|]. right.
  pose proof (@match_here_none _ _ H) as N.
  destruct (L c) eqn:Ec.
  { destruct (N [c] s eq_refl) as (N1 & _). destruct N1.
    now apply word_group_letter. }
  destruct (N.eq_dec c PIPE) as [->|Hc].
  2:{ destruct (N [c] s eq_refl) as (_ & _ & N3). destruct N3.
      now apply punct_group_other. }
  exists s. split; [reflexivity|]. intros Hin.
  apply in_split_first in Hin.
  destruct Hin as (mid & rest & -> & Hmid).
  destruct (N (PIPE :: mid ++ [PIPE]) rest) as (_ & N2 & _).
  { simpl. now rewrite <- app_assoc. }
  destruct N2. now apply unchanged_group_span.
Qed.

Lemma search_eq (p : words_re) (ma : bool) (s : str) :
  search p ma s =
  match match_here p ma s with
  | Some m => Some m
  | None => match s with [] => None | _ :: s' => search p false s' end
  end.
Proof. destruct s; reflexivity. Qed.

(** [search] either matches where it stands or steps over one pipe that
    nothing closes. *)
Lemma search_spec s :
  match search P false s with
  | Some (g, rest) =>
      token_match g /\
      (s = whole g ++ rest
       \/ (s = PIPE :: whole g ++ rest /\ ~ In PIPE (whole g ++ rest)))
  | None => s = [] \/ s = [PIPE]
  end.
Proof.
  rewrite search_eq.
  destruct (match_here P false s) as [[g rest]|] eqn:E.
  { apply match_here_token in E. tauto. }
  apply match_here_fails in E. destruct E as [-> | (s' & -> & Hs')]; [now left|].
  rewrite search_eq.
  destruct (match_here P false s') as [[g rest]|] eqn:E'.
  { apply match_here_token in E'. destruct E' as [-> Hg]. auto. }
  apply match_here_fails in E'. destruct E' as [-> | (s'' & -> & _)].
  - now right.
  - destruct Hs'. now left.
Qed.

End WordsPattern.

Lemma token_match_not_nil g : token_match g -> whole g <> [].
Proof.
  destruct 1 as [w Hw _ | mid _ | x Hx _]; simpl.
  - now rewrite app_nil_r.
  - discriminate.
  - assumption.
Qed.

Lemma findall_loop_tiles (L : char -> bool) :
  L PIPE = false ->
  forall fuel s, length s < fuel ->
    tiles s (findall_loop (words_pattern L) fuel false s).
Proof.
  intros HL fuel. induction fuel as [|fuel IH]; intros s Hs; [lia|].
  simpl. pose proof (@search_spec L HL s) as H.
  destruct (search (words_pattern L) false s) as [[g rest]|].
  - destruct H as [Hg H]. pose proof (token_match_not_nil Hg) as Hne.
    destruct g as [[w u] x]. cbn [whole] in *.
    replace (length (w ++ u ++ x) =? 0) with false.
    2:{ symmetry. apply Nat.eqb_neq. destruct (w ++ u ++ x); [congruence | discriminate]. }
    assert (Hpos : 0 < length (w ++ u ++ x)).
    { destruct (w ++ u ++ x); [congruence | simpl; lia]. }
    assert (Hlen : length rest < fuel).
    { destruct H as [-> | [-> _]]; simpl in Hs; rewrite length_app in Hs; lia. }
    destruct H as [-> | [-> Hn]].
    + apply (tiles_match Hg). now apply IH.
    + apply tiles_lone_pipe; [assumption|].
      apply (tiles_match Hg). now apply IH.
  - destruct H as [-> | ->]; repeat constructor. intros [].
Qed.

Lemma findall_tiles (L : char -> bool) (text : str) :
  L PIPE = false -> tiles text (findall (words_pattern L) text).
Proof. intros HL. apply findall_loop_tiles; [assumption | lia]. Qed.

(** ** What the tokens say about the text *)

Lemma remove_pipes_app (s t : str) :
  remove_pipes (s ++ t) = remove_pipes s ++ remove_pipes t.
Proof. apply filter_app. Qed.

Lemma remove_pipes_none (s : str) : ~ In PIPE s -> remove_pipes s = s.
Proof.
  induction s as [|c s IH]; simpl; [reflexivity|]. intros H.
  destruct (eqc c PIPE) eqn:E.
  - apply eqc_eq in E. destruct H. now left.
  - simpl. f_equal. apply IH. tauto.
Qed.

Lemma remove_pipes_span (mid : str) :
  ~ In PIPE mid -> remove_pipes (PIPE :: mid ++ [PIPE]) = mid.
Proof.
  intros H. change (PIPE :: mid ++ [PIPE]) with ([PIPE] ++ mid ++ [PIPE]).
  rewrite !remove_pipes_app, (@remove_pipes_none mid H). simpl. apply app_nil_r.
Qed.

Lemma nonempty_true (s : str) : s <> [] -> nonempty s = true.
Proof. destruct s; [congruence | reflexivity]. Qed.

(** [_word_tokenize] on the matches of a text: it raises nothing, and its
    tokens spell the text without its pipes, words possibly lowercased. *)
Lemma word_tokenize_tiles (U : unicode) (is_lower : bool) (s : str) (gs : list groups) :
  tiles s gs ->
  exists tokens,
    _word_tokenize U gs is_lower = Ok tokens /\
    equal_up_to (lower U) (remove_pipes s) (rejoin tokens) /\
    (is_lower = false -> rejoin tokens = remove_pipes s).
Proof.
  induction 1 as [ | rest gs Hn _ IH | g rest gs Hg _ IH].
  - exists []. repeat split; constructor.
  - destruct IH as (tokens & E & H1 & H2). exists tokens.
    simpl. auto.
  - destruct IH as (tokens & E & H1 & H2).
    rewrite remove_pipes_app. cbn [_word_tokenize].
    destruct Hg as [w Hw Hp | mid Hp | x Hx Hp]; cbn [whole].
    + rewrite (@nonempty_true w Hw), E.
      eexists. split; [reflexivity|].
      rewrite !app_nil_r, (@remove_pipes_none w Hp).
      unfold rejoin. cbn [map concat]. fold (rejoin tokens). split.
      * destruct is_lower; unfold token_text; simpl;
          [now apply up_to_changed | now apply up_to_same].
      * intros ->. unfold token_text. simpl. now rewrite H2.
    + cbn [nonempty]. rewrite slice_between, E.
      eexists. split; [reflexivity|].
      cbn [app]. rewrite app_nil_r, (@remove_pipes_span mid Hp).
      unfold rejoin. cbn [map concat]. fold (rejoin tokens).
      unfold token_text. cbn [fst]. rewrite join_split. split.
      * now apply up_to_same.
      * intros Hl. now rewrite H2.
    + cbn [nonempty]. rewrite (@nonempty_true x Hx), E.
      eexists. split; [reflexivity|].
      cbn [app]. rewrite (@remove_pipes_none x Hp).
      unfold rejoin. cbn [map concat]. fold (rejoin tokens).
      unfold token_text. cbn [fst join]. split.
      * now apply up_to_same.
      * intros Hl. now rewrite H2.
Qed.

Lemma LATIN_ALPHABET_BASIC_not_pipe : LATIN_ALPHABET_BASIC PIPE = false.
Proof. reflexivity. Qed.

Lemma LATIN_CHARS_ALL_not_pipe : LATIN_CHARS_ALL PIPE = false.
Proof. reflexivity. Qed.

(** ** Scenario A *)

(** C2, as the specification states it, fails: the comma and the space
    after it are not two tokens. *)
Lemma english_word_tokenize_scenario_A_not_five_tokens :
  english_word_tokenize python311 scenario_A
  <> Ok [ ([str_of "hello"], false); ([str_of ","], false); ([str_of " "], false);
          ([str_of "NVIDIA"; str_of "unchanged"], true); ([str_of "!"], false) ].
Proof. vm_compute. discriminate. Qed.

(** C2 (amended): with the english pattern and lowercasing,
    "Hello, |NVIDIA unchanged|!" gives exactly four tokens; the comma and
    the space after it are one run of the third group and come out as the
    single separator token [", "]. *)
Theorem english_word_tokenize_scenario_A (U : unicode) :
  lower U (str_of "Hello") = str_of "hello" ->
  english_word_tokenize U scenario_A
  = Ok [ ([str_of "hello"], false); ([str_of ", "], false);
         ([str_of "NVIDIA"; str_of "unchanged"], true); ([str_of "!"], false) ].
Proof.
  intros H. unfold english_word_tokenize.
  assert (E : findall _WORDS_RE_EN scenario_A
              = [ (str_of "Hello", [], []); ([], [], str_of ", ");
                  ([], str_of "|NVIDIA unchanged|", []); ([], [], str_of "!") ])
    by (vm_compute; reflexivity).
  rewrite E. cbn [_word_tokenize]. 
  change (nonempty (str_of "Hello")) with true. cbn iota. rewrite H.
  reflexivity.
Qed.

(** Scenario A with the tables of the fragment. *)
Lemma english_word_tokenize_scenario_A_python311 :
  english_word_tokenize python311 scenario_A
  = Ok [ ([str_of "hello"], false); ([str_of ", "], false);
         ([str_of "NVIDIA"; str_of "unchanged"], true); ([str_of "!"], false) ].
Proof. apply (english_word_tokenize_scenario_A python311). reflexivity. Defined.

(** ** Tokens and text *)

(** C3, as the specification states it, fails: the pipes of a protected
    span are in none of its pieces. *)
Lemma rejoin_drops_the_pipes :
  balanced (str_of "|a|") = true /\
  any_locale_word_tokenize python311 (str_of "|a|") = Ok [([str_of "a"], true)] /\
  rejoin [([str_of "a"], true)] <> str_of "|a|".
Proof. repeat split. vm_compute. discriminate. Qed.

(** ** Matches and text *)

(** C4, as the specification states it, fails: in "a|b" the pipe is in no
    match. *)
Lemma lone_pipe_in_no_match :
  findall _WORDS_RE_EN (str_of "a|b") = [(str_of "a", [], []); (str_of "b", [], [])] /\
  findall _WORDS_RE_ANY_LOCALE (str_of "a|b") = [(str_of "a", [], []); (str_of "b", [], [])] /\
  concat (map whole (findall _WORDS_RE_EN (str_of "a|b"))) <> str_of "a|b".
Proof. repeat split. vm_compute. discriminate. Qed.

Lemma count_pipes_token_match g :
  token_match g ->
  Nat.even (count_occ N.eq_dec (whole g) PIPE) = true.
Proof.
  destruct 1 as [w _ Hp | mid Hp | x _ Hp]; cbn [whole];
    apply (count_occ_not_In N.eq_dec) in Hp; unfold str, char in *.
  - rewrite !app_nil_r. now rewrite Hp.
  - rewrite app_nil_r. cbn [app].
    change (PIPE :: mid ++ [PIPE]) with ([PIPE] ++ mid ++ [PIPE]).
    rewrite !count_occ_app. now rewrite Hp.
  - cbn [app]. now rewrite Hp.
Qed.

Lemma tiles_balanced s gs :
  tiles s gs -> balanced s = true -> concat (map whole gs) = s.
Proof.
  unfold balanced.
  induction 1 as [ | rest gs Hn _ _ | g rest gs Hg _ IH]; intros Hb.
  - reflexivity.
  - apply (count_occ_not_In N.eq_dec) in Hn. unfold str, char in *.
    rewrite count_occ_cons_eq, Hn in Hb by reflexivity. discriminate.
  - cbn [map concat]. f_equal. apply IH.
    pose proof (@count_pipes_token_match g Hg) as Eg.
    unfold str, char in *.
    rewrite count_occ_app, Nat.even_add, Eg in Hb.
    destruct (Nat.even (count_occ N.eq_dec rest PIPE)); [reflexivity | discriminate].
Qed.

(** C4 (amended): for every text, the matches of either pattern lie in the
    text one after the other; every character is in exactly one match,
    except a pipe that no later pipe closes: that pipe is in no match, the
    scan steps over it.  When the pipes are balanced no character is left
    out. *)
Theorem matches_tile_text_but_lone_pipes (text : str) :
  tiles text (findall _WORDS_RE_EN text) /\
  tiles text (findall _WORDS_RE_ANY_LOCALE text) /\
  (balanced text = true ->
     concat (map whole (findall _WORDS_RE_EN text)) = text /\
     concat (map whole (findall _WORDS_RE_ANY_LOCALE text)) = text).
Proof.
  pose proof (@findall_tiles _ text LATIN_ALPHABET_BASIC_not_pipe) as H1.
  pose proof (@findall_tiles _ text LATIN_CHARS_ALL_not_pipe) as H2.
  repeat split; try assumption; now apply tiles_balanced.
Qed.

(** The pipes of Scenario A are balanced: its matches leave nothing out. *)
Lemma matches_tile_scenario_A :
  concat (map whole (findall _WORDS_RE_EN scenario_A)) = scenario_A /\
  concat (map whole (findall _WORDS_RE_ANY_LOCALE scenario_A)) = scenario_A.
Proof.
  apply (matches_tile_text_but_lone_pipes scenario_A). reflexivity.
Defined.

(** ** Protected spans *)

Lemma first_pipe_unique (a b r r' : str) :
  ~ In PIPE a -> ~ In PIPE b ->
  a ++ PIPE :: r = b ++ PIPE :: r' -> a = b /\ r = r'.
Proof.
  revert b. induction a as [|c a IH]; intros [|d b] Ha Hb E; simpl in *.
  - injection E as <-. auto.
  - injection E as <- _. tauto.
  - injection E as -> _. tauto.
  - injection E as <- E. destruct (IH b) as [<- <-]; auto.
Qed.

Lemma tiles_nil gs : tiles [] gs -> gs = [].
Proof.
  intros H. inversion H as [ | | g rest gs' Hg _ E]; [reflexivity|].
  apply token_match_not_nil in Hg.
  apply app_eq_nil in E. tauto.
Qed.

(** A text that is one span has one match, the span. *)
Lemma tiles_span (mid : str) (gs : list groups) :
  ~ In PIPE mid ->
  tiles (PIPE :: mid ++ [PIPE]) gs -> gs = [([], PIPE :: mid ++ [PIPE], [])].
Proof.
  intros Hmid H. inversion H as [ | rest gs' Hn _ E | g rest gs' Hg Hrest E]; subst.
  - destruct Hn. apply in_or_app. right. now left.
  - destruct Hg as [w Hw Hp | mid' Hp | x Hx Hp]; cbn [whole] in E.
    + destruct w as [|c w]; [congruence|]. injection E as -> _.
      destruct Hp. now left.
    + cbn [app] in E. rewrite app_nil_r in E. injection E as E.
      rewrite <- app_assoc in E. cbn [app] in E.
      apply first_pipe_unique in E; try assumption.
      destruct E as [-> ->]. apply tiles_nil in Hrest. subst gs'.
      cbn [whole app]. now rewrite !app_nil_r.
    + destruct x as [|c x]; [congruence|]. injection E as -> _.
      destruct Hp. now left.
Qed.

Lemma findall_span (L : char -> bool) (mid : str) :
  L PIPE = false -> ~ In PIPE mid ->
  findall (words_pattern L) (PIPE :: mid ++ [PIPE]) = [([], PIPE :: mid ++ [PIPE], [])].
Proof.
  intros HL Hmid. apply tiles_span; [assumption|]. now apply findall_tiles.
Qed.

(** C10: the token of a protected span [|mid|] has the pieces of
    [mid.split(" ")], empty ones included, one more than [mid] has
    spaces: with either pattern "||" gives the single piece "" and
    "|a  b|" the pieces "a", "" and "b". *)
Theorem protected_span_keeps_empty_pieces (U : unicode) :
  (forall mid, ~ In PIPE mid ->
     any_locale_word_tokenize U (PIPE :: mid ++ [PIPE]) = Ok [(split SPACE mid, true)] /\
     english_word_tokenize U (PIPE :: mid ++ [PIPE]) = Ok [(split SPACE mid, true)] /\
     length (split SPACE mid) = S (count_occ N.eq_dec mid SPACE)) /\
  any_locale_word_tokenize U (str_of "||") = Ok [([[]], true)] /\
  english_word_tokenize U (str_of "||") = Ok [([[]], true)] /\
  any_locale_word_tokenize U (str_of "|a  b|") = Ok [([str_of "a"; []; str_of "b"], true)] /\
  english_word_tokenize U (str_of "|a  b|") = Ok [([str_of "a"; []; str_of "b"], true)].
Proof.
  assert (G : forall mid, ~ In PIPE mid ->
     any_locale_word_tokenize U (PIPE :: mid ++ [PIPE]) = Ok [(split SPACE mid, true)] /\
     english_word_tokenize U (PIPE :: mid ++ [PIPE]) = Ok [(split SPACE mid, true)] /\
     length (split SPACE mid) = S (count_occ N.eq_dec mid SPACE)).
  { intros mid Hmid. unfold any_locale_word_tokenize, english_word_tokenize.
    unfold _WORDS_RE_ANY_LOCALE, _WORDS_RE_EN.
    rewrite !findall_span by (assumption || reflexivity).
    cbn [_word_tokenize nonempty]. rewrite slice_between.
    repeat split. apply split_length. }
  split; [exact G|].
  destruct (G [] (fun H => H)) as (E1 & E2 & _).
  assert (Hab : ~ In PIPE (str_of "a  b")) by (vm_compute; intuition discriminate).
  destruct (G (str_of "a  b") Hab) as (E3 & E4 & _).
  repeat split; assumption.
Qed.

(** A span with a leading space and two trailing ones. *)
Lemma protected_span_of_spaces :
  any_locale_word_tokenize python311 (str_of "| a  |")
  = Ok [([[]; str_of "a"; []; []], true)].
Proof.
  apply (proj1 (protected_span_keeps_empty_pieces python311) (str_of " a  ")).
  vm_compute. intuition discriminate.
Defined.

(** ** Empty matches *)

(** C8: when one of the matches handed to [_word_tokenize] has its three
    groups empty, the call raises the [ValueError] that reports the
    pattern, whatever the other matches are, and returns no token. *)
Theorem word_tokenize_raises_on_empty_match
    (U : unicode) (words : list groups) (is_lower : bool) :
  In ([], [], []) words ->
  _word_tokenize U words is_lower = Raise (ValueError ([], [], [])).
Proof.
  induction words as [|[[w u] x] words IH]; [contradiction|].
  intros [E | Hin].
  - injection E as -> -> ->. reflexivity.
  - cbn [_word_tokenize]. rewrite (IH Hin).
    destruct w, x, u; reflexivity.
Qed.

(** An empty match after a word: the word is not returned either. *)
Lemma word_tokenize_raises_after_a_word :
  _word_tokenize python311 [(str_of "Hello", [], []); ([], [], [])] true
  = Raise (ValueError ([], [], [])).
Proof.
  apply word_tokenize_raises_on_empty_match. right. left. reflexivity.
Defined.

(** ** The heuristic clusterer *)

(** The loop moves every character it keeps, in order, to the end of what
    it has gathered. *)
Lemma cluster_loop_concat U lang_symbols text :
  forall i clusters current_cluster,
    let '(clusters', current') :=
      cluster_loop U lang_symbols text i clusters current_cluster in
    concat clusters' ++ current'
    = concat clusters ++ current_cluster ++ retained U text.
Proof.
  induction text as [|c text IH]; intros i clusters cur; simpl.
  - now rewrite app_nil_r.
  - destruct (skipped U c); simpl.
    + apply IH.
    + assert (Hadd : let '(clusters', current') :=
                cluster_loop U lang_symbols text (S i) clusters (cur ++ [c]) in
              concat clusters' ++ current'
              = concat clusters ++ cur ++ c :: retained U text).
      { specialize (IH (S i) clusters (cur ++ [c])).
        destruct (cluster_loop U lang_symbols text (S i) clusters (cur ++ [c])).
        rewrite IH, <- app_assoc. reflexivity. }
      destruct (i =? 0); [exact Hadd|].
      destruct (char_in c lang_symbols); [exact Hadd|].
      specialize (IH (S i) (clusters ++ [cur]) [c]).
      destruct (cluster_loop U lang_symbols text (S i) (clusters ++ [cur]) [c]).
      rewrite IH, concat_app. simpl. now rewrite app_nil_r, <- app_assoc.
Qed.

Lemma clusters_concat U lang_symbols text :
  concat (let '(clusters, current_cluster) := cluster_loop U lang_symbols text 0 [] [] in
          clusters ++ [current_cluster]) = retained U text.
Proof.
  pose proof (cluster_loop_concat U lang_symbols text 0 [] []) as H.
  destruct (cluster_loop U lang_symbols text 0 [] []) as [clusters cur].
  rewrite concat_app. simpl. now rewrite app_nil_r.
Qed.

(** C5, as the specification states it, fails for
    [indic_syllable_text_processing]: the clusters are cut from the
    preprocessed text, and NFC turns "o" followed by U+0308 into U+00F6. *)
Lemma clusters_are_cut_from_the_normalized_text :
  concat (indic_syllable_text_processing python311 [chr "o"; COMBINING_DIAERESIS] [])
  = [O_WITH_DIAERESIS] /\
  retained python311 [chr "o"; COMBINING_DIAERESIS] = [chr "o"; COMBINING_DIAERESIS].
Proof. split; reflexivity. Qed.

(** C5 (amended): for every text and every set of combining symbols, the
    clusters in order, concatenated, are the text the loop runs on with
    its digits, [string.punctuation] and [string.whitespace] characters
    removed: the input itself for [generate_grapheme_clusters], and the
    input after [any_locale_text_preprocessing] for
    [indic_syllable_text_processing]. *)
Theorem clusters_concat_to_retained_text
    (U : unicode) (text : str) (lang_symbols : list char) :
  concat (generate_grapheme_clusters U text lang_symbols) = retained U text /\
  concat (indic_syllable_text_processing U text lang_symbols)
  = retained U (any_locale_text_preprocessing U text).
Proof.
  split.
  - apply (clusters_concat U lang_symbols text).
  - apply (clusters_concat U lang_symbols (any_locale_text_preprocessing U text)).
Qed.

(** Past the first index, with a current cluster that is not empty, the
    loop closes and opens clusters that are not empty. *)
Lemma cluster_loop_not_empty U lang_symbols text :
  forall i clusters current_cluster,
    Forall (fun c => c <> []) clusters -> current_cluster <> [] ->
    let '(clusters', current') :=
      cluster_loop U lang_symbols text (S i) clusters current_cluster in
    Forall (fun c => c <> []) (clusters' ++ [current']).
Proof.
  induction text as [|c text IH]; intros i clusters cur Hcl Hcur; simpl.
  - apply Forall_app. auto.
  - destruct (skipped U c); [now apply IH|].
    destruct (char_in c lang_symbols).
    + apply IH; [assumption|]. destruct cur; discriminate.
    + apply IH; [|discriminate]. apply Forall_app. auto.
Qed.

(** The guard [i == 0] does its work when the first character is kept. *)
Lemma clusters_not_empty_after_kept_first U c text lang_symbols :
  skipped U c = false ->
  Forall (fun cl => cl <> []) (generate_grapheme_clusters U (c :: text) lang_symbols).
Proof.
  intros H. unfold generate_grapheme_clusters. simpl. rewrite H.
  pose proof (cluster_loop_not_empty U lang_symbols text 0 (clusters := []) (current_cluster := [c]))
    as IH.
  assert (Hnil : Forall (fun cl : str => cl <> []) []) by constructor.
  assert (Hc : [c] <> []) by discriminate.
  specialize (IH Hnil Hc). revert IH. unfold str.
  match goal with
  | |- context [cluster_loop ?a ?b ?t ?i ?cl ?cu] =>
      destruct (cluster_loop a b t i cl cu)
  end.
  intros IH. exact IH.
Qed.

(** C1 fails on the code: the clusterer returns an empty cluster for the
    empty text, whatever the tables and the symbols, and for a text whose
    first character is skipped, here " a". *)
Theorem heuristic_clusterer_returns_empty_cluster :
  (forall U lang_symbols, generate_grapheme_clusters U [] lang_symbols = [[]]) /\
  generate_grapheme_clusters python311 (str_of " a") [] = [[]; str_of "a"] /\
  indic_syllable_text_processing python311 (str_of " a") [] = [[]; str_of "a"] /\
  indic_syllable_text_processing python311 [] [] = [[]].
Proof. repeat split. Qed.

(** ** Quote folding *)

(** What the dictionary says of one character. *)
Lemma SYNOGLYPH2ASCII_get (c : char) :
  dict_get c SYNOGLYPH2ASCII =
  if eqc c RIGHT_SINGLE_QUOTATION_MARK then Some APOSTROPHE
  else if (eqc c LEFT_DOUBLE_QUOTATION_MARK || eqc c RIGHT_DOUBLE_QUOTATION_MARK)%bool
       then Some DOUBLE_QUOTE
       else None.
Proof.
  change SYNOGLYPH2ASCII
    with [ (RIGHT_SINGLE_QUOTATION_MARK, APOSTROPHE);
           (RIGHT_DOUBLE_QUOTATION_MARK, DOUBLE_QUOTE);
           (LEFT_DOUBLE_QUOTATION_MARK, DOUBLE_QUOTE) ].
  cbn [dict_get].
  destruct (eqc c RIGHT_SINGLE_QUOTATION_MARK); [reflexivity|].
  destruct (eqc c RIGHT_DOUBLE_QUOTATION_MARK), (eqc c LEFT_DOUBLE_QUOTATION_MARK);
    reflexivity.
Qed.

(** C9: quote folding rewrites the text character by character: U+2019
    becomes the ASCII apostrophe, U+201C and U+201D become the ASCII double
    quote, every other character stays, so the length stays too; the text
    of Scenario C folds to its ASCII spelling. *)
Theorem fold_quotes_replaces_the_three_glyphs (text : str) :
  fold_quotes text
  = map (fun c =>
           if eqc c RIGHT_SINGLE_QUOTATION_MARK then APOSTROPHE
           else if (eqc c LEFT_DOUBLE_QUOTATION_MARK
                    || eqc c RIGHT_DOUBLE_QUOTATION_MARK)%bool then DOUBLE_QUOTE
           else c) text /\
  length (fold_quotes text) = length text /\
  fold_quotes scenario_C = scenario_C_folded.
Proof.
  split; [|split].
  - unfold fold_quotes. apply map_ext. intros c. rewrite SYNOGLYPH2ASCII_get.
    destruct (eqc c RIGHT_SINGLE_QUOTATION_MARK); [reflexivity|].
    destruct (eqc c LEFT_DOUBLE_QUOTATION_MARK || eqc c RIGHT_DOUBLE_QUOTATION_MARK)%bool;
      reflexivity.
  - unfold fold_quotes. apply length_map.
  - reflexivity.
Qed.

(** ** Unicode normalization *)

(** C6: [normalize_unicode_text] is idempotent, granted that the
    interpreter's NFC is; and it returns a text that is already in NFC form
    ([is_normalized] says so, or NFC maps it to itself) unchanged. *)
Theorem normalize_unicode_text_idempotent (U : unicode) (text : str) :
  ((forall t, normalize_NFC U (normalize_NFC U t) = normalize_NFC U t) ->
   normalize_unicode_text U (normalize_unicode_text U text)
   = normalize_unicode_text U text) /\
  (is_normalized_NFC U text = true -> normalize_unicode_text U text = text) /\
  (normalize_NFC U text = text -> normalize_unicode_text U text = text).
Proof.
  unfold normalize_unicode_text. repeat split.
  - intros Hidem. destruct (is_normalized_NFC U text) eqn:E; simpl.
    + now rewrite E.
    + destruct (is_normalized_NFC U (normalize_NFC U text)); simpl;
        [reflexivity | apply Hidem].
  - intros ->. reflexivity.
  - intros E. destruct (is_normalized_NFC U text); simpl; [reflexivity | exact E].
Qed.

Lemma compose_step (base mark : char) (s : str) :
  compose (base :: mark :: s) =
  match compose_pair base mark with
  | Some c => c :: compose s
  | None => base :: compose (mark :: s)
  end.
Proof. reflexivity. Qed.

Lemma compose_pair_some base mark c :
  compose_pair base mark = Some c ->
  base = chr "o" /\ mark = COMBINING_DIAERESIS /\ c = O_WITH_DIAERESIS.
Proof.
  unfold compose_pair.
  destruct (eqc base (chr "o")) eqn:E1; [|discriminate].
  destruct (eqc mark COMBINING_DIAERESIS) eqn:E2; [|discriminate].
  apply eqc_eq in E1, E2. intros [= <-]. auto.
Qed.

(** The first character of a composed text is the first of the text or a
    composed character. *)
Lemma compose_head (c : char) (s : str) :
  exists h t, compose (c :: s) = h :: t /\ (h = c \/ h = O_WITH_DIAERESIS).
Proof.
  destruct s as [|m s]; [exists c, []; auto|].
  rewrite compose_step. destruct (compose_pair c m) as [x|] eqn:E.
  - apply compose_pair_some in E. destruct E as (_ & _ & ->). eauto.
  - eauto.
Qed.

Lemma compose_idempotent_bounded (n : nat) :
  forall s, length s <= n -> compose (compose s) = compose s.
Proof.
  induction n as [|n IH]; intros s Hn.
  - destruct s; [reflexivity | simpl in Hn; lia].
  - destruct s as [|b [|m s]]; try reflexivity.
    simpl in Hn. rewrite compose_step.
    destruct (compose_pair b m) as [x|] eqn:E.
    + apply compose_pair_some in E. destruct E as (_ & _ & ->).
      destruct (compose s) as [|y r] eqn:Es; [reflexivity|].
      rewrite compose_step.
      replace (compose_pair O_WITH_DIAERESIS y) with (@None char) by reflexivity.
      rewrite <- Es, IH by lia. reflexivity.
    + destruct (compose_head m s) as (h & t & Eh & Hh).
      rewrite Eh, compose_step.
      replace (compose_pair b h) with (@None char).
      * rewrite <- Eh, IH by (simpl; lia). reflexivity.
      * destruct Hh as [-> | ->]; [now rewrite E|].
        unfold compose_pair. rewrite andb_false_r. reflexivity.
Qed.

Lemma compose_idempotent (s : str) : compose (compose s) = compose s.
Proof. exact (@compose_idempotent_bounded (length s) s (le_n _)). Qed.

(** The composition of the fragment is idempotent, so the theorem applies
    to it; here on the decomposed spelling of U+00F6. *)
Lemma normalize_unicode_text_idempotent_python311 :
  normalize_unicode_text python311
    (normalize_unicode_text python311 [chr "o"; COMBINING_DIAERESIS])
  = normalize_unicode_text python311 [chr "o"; COMBINING_DIAERESIS].
Proof.
  exact (proj1 (normalize_unicode_text_idempotent python311
                  [chr "o"; COMBINING_DIAERESIS]) compose_idempotent).
Defined.

(** ** The linguistic clusterer without its library *)


Lemma syllabify_loop_without_library W lang_id n words i syllables :
  syllabifier W = None -> words <> [] ->
  syllabify_loop W lang_id n words i syllables
  = (syllables, Some (NameError "syllabifier")).
Proof.
  intros H Hw. destruct words as [|word words]; [congruence|].
  simpl. now rewrite H.
Qed.



(** * Further properties of the code *)

(** ** Preprocessing *)

Lemma fold_char_fixed (c : char) :
  dict_get c SYNOGLYPH2ASCII = None \/
  (exists asc, dict_get c SYNOGLYPH2ASCII = Some asc /\
               dict_get asc SYNOGLYPH2ASCII = None /\
               (asc = APOSTROPHE \/ asc = DOUBLE_QUOTE)).
Proof.
  rewrite SYNOGLYPH2ASCII_get.
  destruct (eqc c RIGHT_SINGLE_QUOTATION_MARK).
  { right. exists APOSTROPHE. auto. }
  destruct (eqc c LEFT_DOUBLE_QUOTATION_MARK || eqc c RIGHT_DOUBLE_QUOTATION_MARK)%bool.
  { right. exists DOUBLE_QUOTE. auto. }
  now left.
Qed.

Lemma fold_quotes_no_synoglyph (text : str) :
  Forall (fun c => synoglyph c = false) (fold_quotes text).
Proof.
  unfold fold_quotes, synoglyph.
  apply Forall_forall. intros c Hc. apply in_map_iff in Hc.
  destruct Hc as (d & <- & _).
  destruct (fold_char_fixed d) as [E | (asc & E & E' & _)]; rewrite E.
  - now rewrite E.
  - now rewrite E'.
Qed.

(** X1: quote folding is idempotent, and no typographic quote of the
    table is left in a folded text. *)
Theorem fold_quotes_idempotent (text : str) :
  fold_quotes (fold_quotes text) = fold_quotes text /\
  Forall (fun c => synoglyph c = false) (fold_quotes text).
Proof.
  split; [|apply fold_quotes_no_synoglyph].
  unfold fold_quotes. rewrite map_map. apply map_ext. intros c.
  destruct (fold_char_fixed c) as [E | (asc & E & E' & _)]; rewrite E.
  - now rewrite E.
  - now rewrite E'.
Qed.

(** X2: with [lower=False], [english_text_preprocessing] returns a text
    with no nonspacing mark and no typographic quote of the table,
    provided the two ASCII quotes it writes are not nonspacing marks. *)
Theorem english_text_preprocessing_strips_marks (U : unicode) (text : str) :
  category_Mn U APOSTROPHE = false ->
  category_Mn U DOUBLE_QUOTE = false ->
  Forall (fun c => category_Mn U c = false /\ synoglyph c = false)
         (english_text_preprocessing U text false).
Proof.
  intros Ha Hq. unfold english_text_preprocessing.
  apply Forall_forall. intros c Hc. split.
  - unfold fold_quotes in Hc. apply in_map_iff in Hc.
    destruct Hc as (d & <- & Hd). apply filter_In in Hd. destruct Hd as [_ Hd].
    destruct (fold_char_fixed d) as [E | (asc & E & _ & [-> | ->])]; rewrite E.
    + now apply negb_true_iff in Hd.
    + exact Ha.
    + exact Hq.
  - pose proof (fold_quotes_no_synoglyph
                  (filter (fun char => negb (category_Mn U char))
                          (normalize_NFD U text))) as H.
    rewrite Forall_forall in H. now apply H.
Qed.

(** The decomposed spelling of U+00F6 between typographic quotes. *)
Lemma english_text_preprocessing_strips_marks_python311 :
  Forall (fun c => category_Mn python311 c = false /\ synoglyph c = false)
         (english_text_preprocessing python311
            [LEFT_DOUBLE_QUOTATION_MARK; O_WITH_DIAERESIS; RIGHT_DOUBLE_QUOTATION_MARK]
            false).
Proof.
  apply english_text_preprocessing_strips_marks; reflexivity.
Defined.

(** X3: [any_locale_text_preprocessing] returns a text without U+2019,
    as long as the normalized text, and equal to it wherever that one has
    another character than U+2019. *)
Theorem any_locale_text_preprocessing_no_right_quote (U : unicode) (text : str) :
  ~ In RIGHT_SINGLE_QUOTATION_MARK (any_locale_text_preprocessing U text) /\
  length (any_locale_text_preprocessing U text)
  = length (normalize_unicode_text U text) /\
  (forall i c, nth_error (normalize_unicode_text U text) i = Some c ->
     nth_error (any_locale_text_preprocessing U text) i
     = Some (if eqc c RIGHT_SINGLE_QUOTATION_MARK then APOSTROPHE else c)).
Proof.
  unfold any_locale_text_preprocessing. repeat split.
  - intros H. apply in_map_iff in H. destruct H as (c & E & _).
    simpl in E. rewrite orb_false_r in E.
    destruct (eqc c RIGHT_SINGLE_QUOTATION_MARK) eqn:Ec.
    + discriminate.
    + apply eqc_neq in Ec. congruence.
  - apply length_map.
  - intros i c H. rewrite nth_error_map, H. simpl. now rewrite orb_false_r.
Qed.

(** X4: a text that is in NFC form and has no U+2019 goes through
    [any_locale_text_preprocessing] unchanged. *)
Theorem any_locale_text_preprocessing_fixes_clean_text (U : unicode) (text : str) :
  is_normalized_NFC U text = true ->
  ~ In RIGHT_SINGLE_QUOTATION_MARK text ->
  any_locale_text_preprocessing U text = text.
Proof.
  intros Hn Hq. unfold any_locale_text_preprocessing, normalize_unicode_text.
  rewrite Hn. simpl. clear Hn. induction text as [|c text IH]; [reflexivity|].
  simpl. rewrite orb_false_r.
  destruct (eqc c RIGHT_SINGLE_QUOTATION_MARK) eqn:Ec.
  - apply eqc_eq in Ec. destruct Hq. now left.
  - f_equal. apply IH. intros H. apply Hq. now right.
Qed.

(** Scenario A is such a text. *)
Lemma any_locale_text_preprocessing_fixes_scenario_A :
  any_locale_text_preprocessing python311 scenario_A = scenario_A.
Proof.
  apply any_locale_text_preprocessing_fixes_clean_text.
  - reflexivity.
  - vm_compute. intuition discriminate.
Defined.

(** ** [_word_tokenize] on any list of matches *)

(** X5: [_word_tokenize] raises exactly when one of the matches has its
    three groups empty, and then the [ValueError] of that match;
    otherwise it returns one token for each match. *)
Theorem word_tokenize_raises_iff_empty_match
    (U : unicode) (words : list groups) (is_lower : bool) :
  match _word_tokenize U words is_lower with
  | Ok tokens => ~ In empty_match words /\ length tokens = length words
  | Raise e => In empty_match words /\ e = ValueError empty_match
  end.
Proof.
  unfold empty_match.
  induction words as [|[[w u] x] words IH]; [simpl; auto|].
  cbn [_word_tokenize].
  destruct (_word_tokenize U words is_lower) as [tokens|e].
  - destruct IH as [Hn Hl].
    destruct w, x, u; simpl; try (split; [intros [E|E]; [discriminate | tauto] | congruence]).
    split; [now left | reflexivity].
  - destruct IH as [Hin ->].
    destruct w, x, u; simpl; auto.
Qed.

Lemma word_tokenize_lowering (U : unicode) (words : list groups) :
  match _word_tokenize U words false, _word_tokenize U words true with
  | Ok tokens, Ok tokens' => Forall2 (same_but_lowered U) tokens tokens'
  | Raise e, Raise e' => e = e'
  | _, _ => False
  end.
Proof.
  induction words as [|[[w u] x] words IH]; [simpl; constructor|].
  cbn [_word_tokenize].
  destruct (_word_tokenize U words false) as [t0|e0],
           (_word_tokenize U words true) as [t1|e1]; try contradiction.
  - destruct w, x, u; simpl; try reflexivity;
      constructor; try assumption; split; simpl; eauto.
  - subst e1. destruct w, x, u; reflexivity.
Qed.

(** X6: lowercasing changes no flag and no token but those of words: run
    with and without it, [_word_tokenize] raises the same error or returns
    token lists that agree match by match: for a match with a word, the
    token of the word and the token of the lowercased word; for any other
    match, the same token. *)
Theorem word_tokenize_lowercases_words_only (U : unicode) (words : list groups) :
  match _word_tokenize U words false, _word_tokenize U words true with
  | Ok tokens, Ok tokens' => lowers_words U words tokens tokens'
  | Raise e, Raise e' => e = e'
  | _, _ => False
  end.
Proof.
  induction words as [|[[w u] x] words IH]; [simpl; constructor|].
  cbn [_word_tokenize].
  destruct (_word_tokenize U words false) as [t0|e0],
           (_word_tokenize U words true) as [t1|e1]; try contradiction.
  - destruct w, x, u; simpl; try reflexivity;
      constructor; try assumption; unfold lowered_pair; simpl; auto.
  - subst e1. destruct w, x, u; reflexivity.
Qed.

(** ** The tokens of a text *)

Lemma tiles_token_match s gs : tiles s gs -> Forall token_match gs.
Proof. induction 1; auto. Qed.

Lemma word_tokenize_matches (U : unicode) (is_lower : bool) (gs : list groups) :
  Forall token_match gs ->
  _word_tokenize U gs is_lower = Ok (map (token_of U is_lower) gs).
Proof.
  induction 1 as [|g gs Hg _ IH]; [reflexivity|].
  cbn [_word_tokenize map]. rewrite IH.
  destruct Hg as [w Hw _ | mid _ | x Hx _]; cbn [token_of].
  - now rewrite (@nonempty_true w Hw).
  - reflexivity.
  - cbn [nonempty]. now rewrite (@nonempty_true x Hx).
Qed.

Lemma tokenize_any_locale (U : unicode) (text : str) :
  any_locale_word_tokenize U text
  = Ok (map (token_of U false) (findall _WORDS_RE_ANY_LOCALE text)).
Proof.
  apply word_tokenize_matches. apply tiles_token_match with (s := text).
  apply findall_tiles. reflexivity.
Qed.

Lemma tokenize_english (U : unicode) (text : str) :
  english_word_tokenize U text
  = Ok (map (token_of U true) (findall _WORDS_RE_EN text)).
Proof.
  apply word_tokenize_matches. apply tiles_token_match with (s := text).
  apply findall_tiles. reflexivity.
Qed.

Lemma count_pipes_span (mid rest : str) :
  ~ In PIPE mid ->
  count_occ N.eq_dec ((PIPE :: mid ++ [PIPE]) ++ rest) PIPE
  = S (S (count_occ N.eq_dec rest PIPE)).
Proof.
  intros H. apply (count_occ_not_In N.eq_dec) in H. unfold str, char in *.
  change (PIPE :: mid ++ [PIPE]) with ([PIPE] ++ mid ++ [PIPE]).
  rewrite !count_occ_app, H. simpl. lia.
Qed.

Lemma count_pipes_none (w rest : str) :
  ~ In PIPE w ->
  count_occ N.eq_dec (w ++ rest) PIPE = count_occ N.eq_dec rest PIPE.
Proof.
  intros H. apply (count_occ_not_In N.eq_dec) in H. unfold str, char in *.
  now rewrite count_occ_app, H.
Qed.

Lemma tiles_protected_count (U : unicode) (is_lower : bool) s gs :
  tiles s gs ->
  protected_count (map (token_of U is_lower) gs)
  = Nat.div2 (count_occ N.eq_dec s PIPE).
Proof.
  unfold protected_count.
  induction 1 as [ | rest gs Hn _ IH | g rest gs Hg _ IH].
  - reflexivity.
  - rewrite IH. apply (count_occ_not_In N.eq_dec) in Hn. unfold str, char in *.
    rewrite count_occ_cons_eq, Hn by reflexivity. reflexivity.
  - cbn [map filter].
    destruct Hg as [w Hw Hp | mid Hp | x Hx Hp]; cbn [whole token_of].
    + rewrite (@nonempty_true w Hw). cbn [snd]. rewrite IH, !app_nil_r.
      now rewrite (@count_pipes_none w rest Hp).
    + cbn [nonempty snd length]. rewrite IH. cbn [app]. rewrite app_nil_r.
      change (PIPE :: (mid ++ [PIPE]) ++ rest) with ((PIPE :: mid ++ [PIPE]) ++ rest).
      now rewrite (@count_pipes_span mid rest Hp).
    + cbn [nonempty]. rewrite (@nonempty_true x Hx). cbn [snd app]. rewrite IH.
      now rewrite (@count_pipes_none x rest Hp).
Qed.

(** X7: each pair of pipes gives one protected token, a last pipe without
    its pair none: in the tokens of a text, with either tokenizer, the
    protected ones are half as many as the pipes of the text, rounded
    down. *)
Theorem protected_tokens_are_half_the_pipes (U : unicode) (text : str) :
  (exists tokens, any_locale_word_tokenize U text = Ok tokens /\
     protected_count tokens = Nat.div2 (count_occ N.eq_dec text PIPE)) /\
  (exists tokens, english_word_tokenize U text = Ok tokens /\
     protected_count tokens = Nat.div2 (count_occ N.eq_dec text PIPE)).
Proof.
  split; eexists; (split; [apply tokenize_any_locale || apply tokenize_english|]);
    apply tiles_protected_count; apply findall_tiles; reflexivity.
Qed.

Lemma split_pieces_no_sep (sep : char) (s : str) :
  Forall (fun p => ~ In sep p) (split sep s).
Proof.
  induction s as [|c s IH]; simpl.
  - constructor; [intros [] | constructor].
  - destruct (eqc c sep) eqn:E.
    + constructor; [intros [] | assumption].
    + destruct (split sep s) as [|p ps]; [constructor; [|constructor]|].
      * apply eqc_neq in E. intros [H|[]]. congruence.
      * inversion IH; subst. constructor; [|assumption].
        apply eqc_neq in E. intros [H|H]; [congruence | contradiction].
Qed.

Lemma split_pieces_within (sep : char) (s : str) :
  forall p, In p (split sep s) -> forall c, In c p -> In c s.
Proof.
  induction s as [|c s IH]; simpl; intros p Hp d Hd.
  - destruct Hp as [<-|[]]. contradiction.
  - destruct (eqc c sep).
    + destruct Hp as [<-|Hp]; [contradiction|]. right. eauto.
    + destruct (split sep s) as [|q qs].
      * destruct Hp as [<-|[]]. destruct Hd as [->|[]]. now left.
      * destruct Hp as [<-|Hp].
        -- destruct Hd as [->|Hd]; [now left|]. right. apply (IH q); simpl; auto.
        -- right. apply (IH p); simpl; auto.
Qed.

Lemma tiles_stretch s gs :
  tiles s gs -> forall g, In g gs -> stretch_of (whole g) s.
Proof.
  induction 1 as [ | rest gs Hn _ IH | g0 rest gs Hg _ IH]; intros g Hin.
  - contradiction.
  - destruct (IH g Hin) as (a & b & ->). now exists (PIPE :: a), b.
  - destruct Hin as [->|Hin].
    + now exists [], rest.
    + destruct (IH g Hin) as (a & b & ->).
      exists (whole g0 ++ a), b. now rewrite <- app_assoc.
Qed.

Lemma protected_token_of_match (U : unicode) (is_lower : bool) s gs pieces :
  tiles s gs ->
  In (pieces, true) (map (token_of U is_lower) gs) ->
  Forall (fun p => ~ In SPACE p /\ ~ In PIPE p) pieces /\
  stretch_of (PIPE :: join [SPACE] pieces ++ [PIPE]) s.
Proof.
  intros Ht Hin. apply in_map_iff in Hin. destruct Hin as (g & Eg & Hin).
  pose proof (tiles_stretch Ht g Hin) as Hs.
  pose proof (tiles_token_match Ht) as Hall. rewrite Forall_forall in Hall.
  destruct (Hall g Hin) as [w Hw _ | mid Hp | x Hx _]; cbn [token_of] in Eg.
  - rewrite (@nonempty_true w Hw) in Eg. discriminate.
  - cbn [nonempty] in Eg. rewrite slice_between in Eg. injection Eg as <-.
    rewrite join_split. cbn [whole app] in Hs. rewrite app_nil_r in Hs.
    split; [|exact Hs].
    apply Forall_forall. intros p Hin'. split.
    + pose proof (split_pieces_no_sep SPACE mid) as H.
      rewrite Forall_forall in H. now apply H.
    + intros Hc. apply Hp. now apply (split_pieces_within SPACE mid p Hin').
  - cbn [nonempty] in Eg. rewrite (@nonempty_true x Hx) in Eg. discriminate.
Qed.

(** X8: a protected token is a span of the text, kept as it is written:
    whichever tokenizer returned it, its pieces have no space and no pipe
    in them, and joined by one space and put back between two pipes they
    are a stretch of the text. *)
Theorem protected_tokens_are_spans_of_the_text
    (U : unicode) (text : str) (tokens : list token) (pieces : list str) :
  any_locale_word_tokenize U text = Ok tokens
  \/ english_word_tokenize U text = Ok tokens ->
  In (pieces, true) tokens ->
  Forall (fun p => ~ In SPACE p /\ ~ In PIPE p) pieces /\
  stretch_of (PIPE :: join [SPACE] pieces ++ [PIPE]) text.
Proof.
  intros [E|E] Hin.
  - rewrite tokenize_any_locale in E. injection E as <-.
    apply (@protected_token_of_match U false text (findall _WORDS_RE_ANY_LOCALE text));
      [apply findall_tiles; reflexivity | assumption].
  - rewrite tokenize_english in E. injection E as <-.
    apply (@protected_token_of_match U true text (findall _WORDS_RE_EN text));
      [apply findall_tiles; reflexivity | assumption].
Qed.

(** The protected token of Scenario A. *)
Lemma protected_token_of_scenario_A :
  Forall (fun p => ~ In SPACE p /\ ~ In PIPE p) [str_of "NVIDIA"; str_of "unchanged"] /\
  stretch_of (PIPE :: join [SPACE] [str_of "NVIDIA"; str_of "unchanged"] ++ [PIPE])
             scenario_A.
Proof.
  apply (@protected_tokens_are_spans_of_the_text python311 scenario_A
           [ ([str_of "hello"], false); ([str_of ", "], false);
             ([str_of "NVIDIA"; str_of "unchanged"], true); ([str_of "!"], false) ]).
  - right. reflexivity.
  - right. right. left. reflexivity.
Defined.

(** ** The shape of words and separators *)

Lemma match_here_lang p ma s g rest :
  match_here p ma s = Some (g, rest) -> group_in_lang p g.
Proof.
  unfold match_here, group_in_lang.
  match goal with |- context [exec _ s ?k0] => set (k := k0) end.
  assert (Hk : forall v x, k v = Some x -> x = v).
  { intros v x. unfold k. destruct (ma && _)%bool; [discriminate | congruence]. }
  destruct (exec (word_group p) s k) as [r1|] eqn:E1.
  { intros [= <- <-]. apply exec_sound in E1.
    destruct E1 as (u & v & -> & Hu & Hv). apply Hk in Hv. subst r1.
    exists u. rewrite matched_app. auto. }
  destruct (exec (unchanged_group p) s k) as [r2|] eqn:E2.
  { intros [= <- <-]. apply exec_sound in E2.
    destruct E2 as (u & v & -> & Hu & Hv). apply Hk in Hv. subst r2.
    exists u. rewrite matched_app. auto. }
  destruct (exec (punct_group p) s k) as [r3|] eqn:E3; [|discriminate].
  intros [= <- <-]. apply exec_sound in E3.
  destruct E3 as (u & v & -> & Hu & Hv). apply Hk in Hv. subst r3.
  exists u. rewrite matched_app. auto.
Qed.

Lemma search_lang p s :
  forall ma g rest, search p ma s = Some (g, rest) -> group_in_lang p g.
Proof.
  induction s as [|c s IH]; intros ma g rest; rewrite search_eq;
    destruct (match_here p ma _) as [[g' rest']|] eqn:E.
  - intros [= <- <-]. eapply match_here_lang; eauto.
  - discriminate.
  - intros [= <- <-]. eapply match_here_lang; eauto.
  - apply IH.
Qed.

Lemma findall_loop_lang p fuel :
  forall ma s, Forall (group_in_lang p) (findall_loop p fuel ma s).
Proof.
  induction fuel as [|fuel IH]; intros ma s; simpl; [constructor|].
  destruct (search p ma s) as [[[[w u] x] rest]|] eqn:E; [|constructor].
  constructor; [|apply IH]. eapply search_lang; eauto.
Qed.

Lemma findall_lang p text : Forall (group_in_lang p) (findall p text).
Proof. apply findall_loop_lang. Qed.

Lemma lang_plus_class p u :
  lang (Plus (Class p)) u -> u <> [] /\ Forall (fun c => p c = true) u.
Proof.
  intros H. split.
  - now apply lang_cat_class_not_nil in H.
  - revert H. apply lang_Forall. simpl. auto.
Qed.

Lemma ends_with_app L u v : ends_with L v -> ends_with L (u ++ v).
Proof.
  intros (w & b & -> & Hb). exists (u ++ w), b. now rewrite app_assoc.
Qed.

Lemma ends_with_all L u :
  u <> [] -> Forall (fun c => L c = true) u -> ends_with L u.
Proof.
  intros Hne Hall. destruct (exists_last Hne) as (v & b & ->).
  exists v, b. split; [reflexivity|].
  apply Forall_app in Hall. destruct Hall as [_ Hb]. now inversion Hb.
Qed.

Lemma lang_star_ends_with L r v :
  (forall u, lang r u -> ends_with L u) ->
  lang (Star r) v -> v = [] \/ ends_with L v.
Proof.
  intros Hr Hv. remember (Star r) as sr eqn:E.
  induction Hv as [ | | | r0 u w Hu _ _ Hw IH]; try discriminate.
  - now left.
  - injection E as ->. right. destruct (IH eq_refl) as [-> | Hw'].
    + rewrite app_nil_r. now apply Hr.
    + now apply ends_with_app.
Qed.

Lemma word_shape_intro L a u :
  L a = true -> ends_with L (a :: u) ->
  Forall (fun c => (L c || eqc c HYPHEN || eqc c APOSTROPHE)%bool = true) (a :: u) ->
  word_shape L (a :: u) = true.
Proof.
  intros Ha (v & b & E & Hb) Hall. unfold word_shape.
  rewrite Ha, E, last_last, Hb. simpl. rewrite <- E.
  apply forallb_forall. now apply Forall_forall.
Qed.

Section Shapes.

Variable L : char -> bool.

Let P := words_pattern L.

Lemma lang_word_shape u : lang (word_group P) u -> word_shape L u = true.
Proof.
  intros H.
  assert (Hall : Forall (fun c => (L c || eqc c HYPHEN || eqc c APOSTROPHE)%bool = true) u).
  { revert H. apply lang_Forall. simpl.
    assert (forall c, L c = true -> (L c || eqc c HYPHEN || eqc c APOSTROPHE)%bool = true)
      by (intros c ->; reflexivity).
    tauto. }
  inversion H as [ | ? ? u1 u2 H1 H2 | | ]; subst.
  pose proof (lang_plus_class H1) as [Hne H1all].
  destruct u1 as [|a u1]; [congruence|].
  assert (Ha : L a = true) by now inversion H1all.
  assert (Hends : u2 = [] \/ ends_with L u2).
  { revert H2. apply lang_star_ends_with.
    intros u Hu. inversion Hu as [ | ? ? x y _ Hy | | ]; subst.
    apply ends_with_app. apply lang_plus_class in Hy. destruct Hy.
    now apply ends_with_all. }
  assert (Hlast : ends_with L ((a :: u1) ++ u2)).
  { destruct Hends as [-> | Hends].
    - rewrite app_nil_r. now apply ends_with_all.
    - now apply ends_with_app. }
  change ((a :: u1) ++ u2) with (a :: (u1 ++ u2)) in *.
  now apply word_shape_intro.
Qed.

Lemma lang_separator_shape x : lang (punct_group P) x -> separator_shape L x = true.
Proof.
  intros H. apply lang_plus_class in H. destruct H as [Hne Hall].
  unfold separator_shape. rewrite (@nonempty_true x Hne). simpl.
  apply forallb_forall. now apply Forall_forall.
Qed.

Lemma word_shape_not_nil w : word_shape L w = true -> w <> [].
Proof. destruct w; [discriminate | discriminate]. Qed.

(** An unprotected token comes from a word or from a separator. *)
Lemma unprotected_token_of_match (U : unicode) (is_lower : bool) text pieces :
  L PIPE = false ->
  In (pieces, false) (map (token_of U is_lower) (findall P text)) ->
  exists p, stretch_of p text /\
    ((word_shape L p = true /\ pieces = [if is_lower then lower U p else p])
     \/ (separator_shape L p = true /\ pieces = [p])).
Proof.
  intros HL Hin. apply in_map_iff in Hin. destruct Hin as (g & Eg & Hin).
  pose proof (tiles_stretch (@findall_tiles L text HL) g Hin) as Hs.
  pose proof (findall_lang P text) as Hall. rewrite Forall_forall in Hall.
  destruct (Hall g Hin) as (u & [[-> Hu] | [[-> Hu] | [-> Hu]]]).
  - cbn [whole] in Hs. rewrite !app_nil_r in Hs.
    apply lang_word_shape in Hu. exists u. split; [assumption|]. left.
    cbn [token_of] in Eg.
    rewrite (@nonempty_true u (@word_shape_not_nil u Hu)) in Eg.
    injection Eg as <-. destruct is_lower; auto.
  - apply (@lang_unchanged_group L) in Hu. destruct Hu as (mid & -> & _).
    discriminate.
  - cbn [whole app] in Hs. pose proof (lang_separator_shape Hu) as Hx.
    exists u. split; [assumption|]. right. split; [assumption|].
    cbn [token_of nonempty] in Eg.
    apply lang_plus_class in Hu. destruct Hu as [Hne _].
    rewrite (@nonempty_true u Hne) in Eg. now injection Eg as <-.
Qed.

End Shapes.

(** X9: a token of [any_locale_word_tokenize] that is not protected has
    one piece, a stretch of the text, and it is either a word (letters of
    [LATIN_CHARS_ALL], hyphens and apostrophes, with a letter first and a
    letter last) or a separator (not empty, no letter and no pipe). *)
Theorem any_locale_token_is_word_or_separator
    (U : unicode) (text : str) (tokens : list token) (pieces : list str) :
  any_locale_word_tokenize U text = Ok tokens ->
  In (pieces, false) tokens ->
  exists p, pieces = [p] /\ stretch_of p text /\
    (word_shape LATIN_CHARS_ALL p = true \/ separator_shape LATIN_CHARS_ALL p = true).
Proof.
  intros E Hin. rewrite tokenize_any_locale in E. injection E as <-.
  apply unprotected_token_of_match in Hin; [|reflexivity].
  destruct Hin as (p & Hs & [[Hw ->] | [Hx ->]]); exists p; auto.
Qed.

(** The comma and space of Scenario A, kept as they are. *)
Lemma any_locale_token_of_scenario_A :
  exists p, [str_of ", "] = [p] /\ stretch_of p scenario_A /\
    (word_shape LATIN_CHARS_ALL p = true \/ separator_shape LATIN_CHARS_ALL p = true).
Proof.
  apply (@any_locale_token_is_word_or_separator python311 scenario_A
           [ ([str_of "Hello"], false); ([str_of ", "], false);
             ([str_of "NVIDIA"; str_of "unchanged"], true); ([str_of "!"], false) ]).
  - reflexivity.
  - right. left. reflexivity.
Defined.

(** X10: a token of [english_word_tokenize] that is not protected has one
    piece: the lowercased spelling of a word of the text (letters A-Z and
    a-z, hyphens and apostrophes, a letter first and last), or a
    separator of the text as it is written. *)
Theorem english_token_is_lowered_word_or_separator
    (U : unicode) (text : str) (tokens : list token) (pieces : list str) :
  english_word_tokenize U text = Ok tokens ->
  In (pieces, false) tokens ->
  exists p, stretch_of p text /\
    ((word_shape LATIN_ALPHABET_BASIC p = true /\ pieces = [lower U p])
     \/ (separator_shape LATIN_ALPHABET_BASIC p = true /\ pieces = [p])).
Proof.
  intros E Hin. rewrite tokenize_english in E. injection E as <-.
  apply (@unprotected_token_of_match LATIN_ALPHABET_BASIC U true) in Hin;
    [assumption | reflexivity].
Qed.

(** The first token of Scenario A. *)
Lemma english_token_of_scenario_A :
  exists p, stretch_of p scenario_A /\
    ((word_shape LATIN_ALPHABET_BASIC p = true /\ [str_of "hello"] = [lower python311 p])
     \/ (separator_shape LATIN_ALPHABET_BASIC p = true /\ [str_of "hello"] = [p])).
Proof.
  apply (@english_token_is_lowered_word_or_separator python311 scenario_A
           [ ([str_of "hello"], false); ([str_of ", "], false);
             ([str_of "NVIDIA"; str_of "unchanged"], true); ([str_of "!"], false) ]).
  - reflexivity.
  - left. reflexivity.
Defined.

(** ** Greedy matches *)

Lemma repeat_greedy_returns body n s :
  repeat_greedy body (fun x => Some x) n s <> None.
Proof.
  destruct n; simpl; [discriminate|]. apply orelse_not_none. right. discriminate.
Qed.

(** Where a greedy repetition stops, no further iteration starts. *)
Lemma repeat_greedy_final r body :
  sound r body -> complete r body ->
  forall n s rest,
    length s <= n ->
    repeat_greedy body (fun x => Some x) n s = Some rest ->
    forall u v, rest = u ++ v -> u <> [] -> ~ lang r u.
Proof.
  intros Hs Hc n. induction n as [|n IH]; intros s rest Hn H u v E Hu Hl; simpl in H.
  - injection H as <-. destruct s; [|simpl in Hn; lia].
    symmetry in E. apply app_eq_nil in E. tauto.
  - apply orelse_some in H. destruct H as [H | [Hnone H]].
    + apply Hs in H. destruct H as (u1 & v1 & -> & _ & H).
      destruct (length v1 <? length (u1 ++ v1)) eqn:El; [|discriminate].
      apply Nat.ltb_lt in El.
      apply (IH v1 rest) with (u := u) (v := v); try assumption. lia.
    + injection H as <-. subst s.
      revert Hnone. apply Hc; [assumption|].
      replace (length v <? length (u ++ v)) with true.
      * apply repeat_greedy_returns.
      * symmetry. apply Nat.ltb_lt. rewrite length_app.
        destruct u; [congruence | simpl; lia].
Qed.

Lemma exec_star_final r s rest :
  exec (Star r) s (fun x => Some x) = Some rest ->
  forall u v, rest = u ++ v -> u <> [] -> ~ lang r u.
Proof.
  simpl. apply (@repeat_greedy_final r (exec r) (@exec_sound r) (@exec_complete r)). lia.
Qed.

Section Greedy.

Variable L : char -> bool.
Hypothesis L_not_pipe : L PIPE = false.

Let P := words_pattern L.
Let not_L_pipe := fun c => negb (L c || eqc c PIPE).

(** A word match stops before a character that is no letter. *)
Lemma word_group_greedy s rest :
  exec (word_group P) s (fun x => Some x) = Some rest ->
  starts_with L rest = false.
Proof.
  intros H. cbn [P words_pattern word_group exec] in H. fold exec in H.
  destruct rest as [|c rest]; [reflexivity|]. simpl.
  destruct (L c) eqn:Ec; [|reflexivity]. exfalso.
  change (exec (Plus (Class L)) s
            (fun s1 => exec (Star (Cat (Star (Class (fun c0 =>
               (L c0 || eqc c0 HYPHEN || eqc c0 APOSTROPHE)%bool))) (Plus (Class L))))
               s1 (fun x => Some x)) = Some (c :: rest)) in H.
  apply exec_sound in H. destruct H as (u & v & _ & _ & H).
  apply (@exec_star_final _ _ _ H [c] rest); [reflexivity | discriminate |].
  change [c] with ([] ++ [c]). apply lang_cat; [constructor | now apply lang_plus_one].
Qed.

(** A separator match stops before a letter or a pipe. *)
Lemma punct_group_greedy s rest :
  exec (punct_group P) s (fun x => Some x) = Some rest ->
  starts_with not_L_pipe rest = false.
Proof.
  intros H.
  change (exec (Class not_L_pipe) s
            (fun s1 => exec (Star (Class not_L_pipe)) s1 (fun x => Some x))
          = Some rest) in H.
  apply exec_sound in H. destruct H as (u & v & _ & _ & H).
  destruct rest as [|c rest]; [reflexivity|]. simpl.
  destruct (not_L_pipe c) eqn:Ec; [|reflexivity]. exfalso.
  apply (@exec_star_final _ _ _ H [c] rest); [reflexivity | discriminate |].
  now constructor.
Qed.

Lemma match_here_follows s g rest :
  match_here P false s = Some (g, rest) ->
  (is_word g = true -> starts_with L rest = false) /\
  (is_separator g = true -> starts_with not_L_pipe rest = false).
Proof.
  unfold match_here. cbn [andb].
  destruct (exec (word_group P) s _) as [r1|] eqn:E1.
  { intros [= <- <-]. split; [|discriminate]. intros _.
    now apply word_group_greedy in E1. }
  destruct (exec (unchanged_group P) s _) as [r2|] eqn:E2.
  { intros [= <- <-]. split; discriminate. }
  destruct (exec (punct_group P) s _) as [r3|] eqn:E3; [|discriminate].
  intros [= <- <-]. split; [discriminate|]. intros _.
  now apply punct_group_greedy in E3.
Qed.

Lemma match_here_starts s g rest :
  match_here P false s = Some (g, rest) ->
  (is_word g = true -> starts_with L s = true) /\
  (is_separator g = true -> starts_with not_L_pipe s = true).
Proof.
  intros H. pose proof (@match_here_lang _ _ _ _ _ H) as (u & Hu).
  apply (@match_here_token L L_not_pipe) in H. destruct H as [-> _].
  destruct Hu as [[-> Hu] | [[-> Hu] | [-> Hu]]]; cbn [whole app].
  - split; [|discriminate]. intros _.
    apply lang_word_shape in Hu. destruct u as [|a u]; [discriminate|].
    simpl in *. destruct (L a); [reflexivity | discriminate].
  - split; discriminate.
  - split; [discriminate|]. intros _.
    apply lang_plus_class in Hu. destruct Hu as [Hne Hall].
    destruct u as [|c u]; [congruence|]. now inversion Hall.
Qed.

(** One turn of the loop on a text with balanced pipes: the match is at
    the start of the text, and what is left is balanced and shorter. *)
Lemma findall_loop_step fuel s :
  balanced s = true ->
  match match_here P false s with
  | Some (g, rest) =>
      findall_loop P (S fuel) false s = g :: findall_loop P fuel false rest
      /\ balanced rest = true /\ length rest < length s
  | None => findall_loop P (S fuel) false s = []
  end.
Proof.
  intros Hb. cbn [findall_loop]. rewrite search_eq.
  destruct (match_here P false s) as [[g rest]|] eqn:E.
  - apply (@match_here_token L L_not_pipe) in E. destruct E as [-> Hg].
    pose proof (token_match_not_nil Hg) as Hne.
    pose proof (@count_pipes_token_match g Hg) as Eg.
    destruct g as [[w u] x]. cbn [whole] in *.
    replace (length (w ++ u ++ x) =? 0) with false.
    2:{ symmetry. apply Nat.eqb_neq. destruct (w ++ u ++ x); [congruence | discriminate]. }
    split; [reflexivity|]. split.
    + unfold balanced in *. unfold str, char in *.
      rewrite count_occ_app, Nat.even_add, Eg in Hb.
      destruct (Nat.even (count_occ N.eq_dec rest PIPE)); [reflexivity | discriminate].
    + rewrite length_app. destruct (w ++ u ++ x); [congruence | simpl; lia].
  - apply (@match_here_fails L) in E.
    destruct E as [-> | (rest & -> & Hn)]; [reflexivity|].
    exfalso. unfold balanced in Hb.
    apply (count_occ_not_In N.eq_dec) in Hn. unfold str, char in *.
    rewrite count_occ_cons_eq, Hn in Hb by reflexivity. discriminate.
Qed.

Lemma findall_loop_alternates fuel :
  forall s, length s < fuel -> balanced s = true ->
    alternates (findall_loop P fuel false s) = true.
Proof.
  induction fuel as [|fuel IH]; intros s Hlen Hb; [reflexivity|].
  pose proof (findall_loop_step fuel s Hb) as Hstep.
  destruct (match_here P false s) as [[g rest]|] eqn:E; [|now rewrite Hstep].
  destruct Hstep as (-> & Hb' & Hlt).
  assert (Hrest : alternates (findall_loop P fuel false rest) = true)
    by (apply IH; [lia | assumption]).
  destruct fuel as [|fuel']; [reflexivity|].
  pose proof (findall_loop_step fuel' rest Hb') as Hstep'.
  destruct (match_here P false rest) as [[g' rest']|] eqn:E';
    [|now rewrite Hstep'].
  destruct Hstep' as (Eq' & _ & _). rewrite Eq' in *.
  cbn [alternates]. cbn [alternates] in Hrest.
  destruct (@match_here_follows _ _ _ E) as [Fw Fs].
  destruct (@match_here_starts _ _ _ E') as [Sw Ss].
  assert (Hw : (is_word g && is_word g')%bool = false).
  { destruct (is_word g); [|reflexivity]. destruct (is_word g'); [|reflexivity].
    rewrite Fw in Sw by reflexivity. now specialize (Sw eq_refl). }
  assert (Hs : (is_separator g && is_separator g')%bool = false).
  { destruct (is_separator g); [|reflexivity].
    destruct (is_separator g'); [|reflexivity].
    rewrite Fs in Ss by reflexivity. now specialize (Ss eq_refl). }
  rewrite Hw, Hs. simpl.
  destruct (findall_loop P fuel' false rest'); [reflexivity | exact Hrest].
Qed.

End Greedy.

(** X11: words and separators are maximal runs.  In a text whose pipes
    are balanced, with either pattern, two matches in a row are never two
    words and never two separators. *)
Theorem balanced_text_matches_alternate (text : str) :
  balanced text = true ->
  alternates (findall _WORDS_RE_EN text) = true /\
  alternates (findall _WORDS_RE_ANY_LOCALE text) = true.
Proof.
  intros Hb. split; apply findall_loop_alternates; try reflexivity; try assumption; lia.
Qed.

(** Scenario A has two pipes. *)
Lemma scenario_A_matches_alternate :
  alternates (findall _WORDS_RE_EN scenario_A) = true /\
  alternates (findall _WORDS_RE_ANY_LOCALE scenario_A) = true.
Proof. apply balanced_text_matches_alternate. reflexivity. Defined.

(** ** The cut of the heuristic clusters *)

Section Clusters.

Variable U : unicode.
Variable lang_symbols : list char.

Let ok (cluster : str) : Prop :=
  Forall (fun c => skipped U c = false) cluster /\
  Forall (fun c => char_in c lang_symbols = true) (tl cluster).

Let opened (cluster : str) : Prop :=
  exists c rest, cluster = c :: rest /\ char_in c lang_symbols = false.

(** What the loop keeps true of its two variables past the first index. *)
Let inv (clusters : list str) (current_cluster : str) : Prop :=
  ok current_cluster /\ Forall ok clusters /\
  match clusters with
  | [] => True
  | _ :: later => Forall opened later /\ opened current_cluster
  end.

Lemma ok_snoc cluster c :
  ok cluster -> skipped U c = false -> char_in c lang_symbols = true ->
  ok (cluster ++ [c]).
Proof.
  intros [H1 H2] Hs Hc. split.
  - apply Forall_app. auto.
  - destruct cluster as [|a cluster]; [constructor|].
    simpl in *. apply Forall_app. auto.
Qed.

Lemma cluster_loop_inv text :
  forall i clusters current_cluster,
    inv clusters current_cluster ->
    let '(clusters', current') :=
      cluster_loop U lang_symbols text (S i) clusters current_cluster in
    inv clusters' current'.
Proof.
  induction text as [|c text IH]; intros i clusters cur Hinv; simpl; [exact Hinv|].
  destruct (skipped U c) eqn:Es; [now apply IH|].
  destruct Hinv as (Hcur & Hcl & Hop).
  destruct (char_in c lang_symbols) eqn:Ec.
  - apply IH. split; [|split].
    + now apply ok_snoc.
    + assumption.
    + destruct clusters as [|f later]; [exact I|].
      destruct Hop as [Hl (a & rest & -> & Ha)]. split; [assumption|].
      exists a, (rest ++ [c]). auto.
  - apply IH. split; [|split].
    + split; [constructor; [assumption | constructor] | constructor].
    + apply Forall_app. auto.
    + destruct clusters as [|f later]; simpl.
      * split; [constructor | now exists c, []].
      * destruct Hop as [Hl Hc]. split; [apply Forall_app; auto | now exists c, []].
Qed.

Lemma cluster_loop_well_cut text :
  well_cut U lang_symbols
    (let '(clusters, current_cluster) := cluster_loop U lang_symbols text 0 [] [] in
     clusters ++ [current_cluster]).
Proof.
  assert (Hend : forall clusters cur, inv clusters cur ->
                   well_cut U lang_symbols (clusters ++ [cur])).
  { intros clusters cur (Hcur & Hcl & Hop). split.
    - apply Forall_app. auto.
    - destruct clusters as [|f later]; simpl; [constructor|].
      destruct Hop. apply Forall_app. auto. }
  assert (H0 : inv [] []) by (split; [split; constructor | split; [constructor | exact I]]).
  destruct text as [|c text]; [now apply (Hend [] [])|].
  simpl. destruct (skipped U c) eqn:Es.
  - pose proof (cluster_loop_inv text 0 H0) as H. revert H. unfold str.
    match goal with
    | |- context [cluster_loop ?a ?b ?t ?i ?cl ?cu] =>
        destruct (cluster_loop a b t i cl cu)
    end.
    apply Hend.
  - assert (H1 : inv [] [c]).
    { split; [split; [constructor; [assumption | constructor] | constructor]
             | split; [constructor | exact I]]. }
    pose proof (cluster_loop_inv text 0 H1) as H. revert H. unfold str.
    match goal with
    | |- context [cluster_loop ?a ?b ?t ?i ?cl ?cu] =>
        destruct (cluster_loop a b t i cl cu)
    end.
    apply Hend.
Qed.

Lemma cluster_loop_length text :
  forall i clusters current_cluster,
    let '(clusters', _) :=
      cluster_loop U lang_symbols text (S i) clusters current_cluster in
    length clusters'
    = length clusters + length (filter (opens_cluster U lang_symbols) text).
Proof.
  induction text as [|c text IH]; intros i clusters cur; simpl; [lia|].
  unfold opens_cluster at 1.
  destruct (skipped U c); simpl; [apply IH|].
  destruct (char_in c lang_symbols); simpl; [apply IH|].
  specialize (IH (S i) (clusters ++ [cur]) [c]).
  destruct (cluster_loop U lang_symbols text (S (S i)) (clusters ++ [cur]) [c]).
  rewrite IH, length_app. simpl. lia.
Qed.

Lemma clusters_length text :
  length (let '(clusters, current_cluster) := cluster_loop U lang_symbols text 0 [] [] in
          clusters ++ [current_cluster])
  = S (length (filter (opens_cluster U lang_symbols) (tl text))).
Proof.
  destruct text as [|c text]; [reflexivity|]. simpl.
  assert (H : forall cur,
             length (let '(clusters, current_cluster) :=
                       cluster_loop U lang_symbols text 1 [] cur in
                     clusters ++ [current_cluster])
             = S (length (filter (opens_cluster U lang_symbols) text))).
  { intros cur. pose proof (cluster_loop_length text 0 [] cur) as H.
    destruct (cluster_loop U lang_symbols text 1 [] cur).
    rewrite length_app, H. simpl. lia. }
  destruct (skipped U c); apply H.
Qed.

End Clusters.

(** X12: the clusters of either function are never the empty list and
    are cut as the loop reads: no digit, punctuation or whitespace
    character is in a cluster; after the first character of a cluster come
    combining symbols only; and every cluster after the first starts with
    a character that is not a combining symbol. *)
Theorem clusters_are_well_cut (U : unicode) (text : str) (lang_symbols : list char) :
  generate_grapheme_clusters U text lang_symbols <> [] /\
  well_cut U lang_symbols (generate_grapheme_clusters U text lang_symbols) /\
  indic_syllable_text_processing U text lang_symbols <> [] /\
  well_cut U lang_symbols (indic_syllable_text_processing U text lang_symbols).
Proof.
  assert (Hne : forall t,
             (let '(clusters, current_cluster) := cluster_loop U lang_symbols t 0 [] [] in
              clusters ++ [current_cluster]) <> []).
  { intros t. destruct (cluster_loop U lang_symbols t 0 [] []) as [cl cu].
    destruct cl; discriminate. }
  repeat split; try apply Hne; apply cluster_loop_well_cut.
Qed.

(** X13: there is one cluster, and one more for each character past the
    first of the text that is kept and is not a combining symbol. *)
Theorem clusters_count (U : unicode) (text : str) (lang_symbols : list char) :
  length (generate_grapheme_clusters U text lang_symbols)
  = S (length (filter (opens_cluster U lang_symbols) (tl text))) /\
  length (indic_syllable_text_processing U text lang_symbols)
  = S (length (filter (opens_cluster U lang_symbols)
                      (tl (any_locale_text_preprocessing U text)))).
Proof. split; apply clusters_length. Qed.

(** X14: when the first character the loop reads is kept, no cluster is
    empty. *)
Theorem clusters_not_empty_when_first_is_kept
    (U : unicode) (c : char) (text : str) (lang_symbols : list char) :
  skipped U c = false ->
  Forall (fun cluster => cluster <> [])
         (generate_grapheme_clusters U (c :: text) lang_symbols) /\
  (forall raw, any_locale_text_preprocessing U raw = c :: text ->
     Forall (fun cluster => cluster <> [])
            (indic_syllable_text_processing U raw lang_symbols)).
Proof.
  intros H. split.
  - now apply clusters_not_empty_after_kept_first.
  - intros raw E. unfold indic_syllable_text_processing. rewrite E.
    now apply clusters_not_empty_after_kept_first.
Qed.

(** A letter first. *)
Lemma clusters_not_empty_python311 :
  Forall (fun cluster => cluster <> [])
         (generate_grapheme_clusters python311 (str_of "a 1b") []).
Proof.
  apply (proj1 (@clusters_not_empty_when_first_is_kept
                  python311 (chr "a") (str_of " 1b") [] eq_refl)).
Defined.

(** ** The linguistic clusterer with its library *)

Section Syllabifier.

Variable W : world.
Variable f : str -> string -> result (list str).
Variable lang_id : string.
Hypothesis library : syllabifier W = Some f.

Lemma syllabify_loop_returns words :
  (forall w, In w words -> exists sy, f w lang_id = Ok sy) ->
  forall i syllables n, n = i + length words ->
    syllabify_loop W lang_id n words i syllables
    = (syllables ++ spaced (map (syllables_of f lang_id) words), None).
Proof.
  induction words as [|w ws IH]; intros Hok i syllables n ->; simpl.
  - now rewrite app_nil_r.
  - rewrite library.
    destruct (Hok w (or_introl eq_refl)) as (sy & E).
    assert (Esy : syllables_of f lang_id w = sy) by (unfold syllables_of; now rewrite E).
    rewrite E, Esy.
    rewrite IH; [| intros w' Hw'; apply Hok; now right | simpl; lia].
    f_equal. destruct ws as [|w' ws]; simpl.
    + replace (i =? i + 1 - 1) with true by (symmetry; apply Nat.eqb_eq; lia).
      simpl. now rewrite !app_nil_r.
    + replace (i =? i + S (S (length ws)) - 1) with false
        by (symmetry; apply Nat.eqb_neq; lia).
      simpl. now rewrite <- !app_assoc.
Qed.

Lemma syllabify_loop_stops pre w post e :
  (forall w', In w' pre -> exists sy, f w' lang_id = Ok sy) ->
  f w lang_id = Raise e ->
  forall i syllables n, n = i + length (pre ++ w :: post) ->
    syllabify_loop W lang_id n (pre ++ w :: post) i syllables
    = (syllables
       ++ concat (map (fun w' => syllables_of f lang_id w' ++ [[SPACE]]) pre),
       Some e).
Proof.
  intros Hok He. induction pre as [|p pre IH]; intros i syllables n ->; simpl.
  - now rewrite library, He, app_nil_r.
  - rewrite library.
    destruct (Hok p (or_introl eq_refl)) as (sy & E).
    assert (Esy : syllables_of f lang_id p = sy) by (unfold syllables_of; now rewrite E).
    rewrite E, Esy.
    rewrite IH; [| intros w' Hw'; apply Hok; now right | simpl; lia].
    replace (i =? i + S (length (pre ++ w :: post)) - 1) with false.
    + simpl. now rewrite <- !app_assoc.
    + symmetry. apply Nat.eqb_neq. rewrite length_app. simpl. lia.
Qed.

End Syllabifier.

(** X15: when the library is there and gives syllables for every word of
    the preprocessed text, the call returns the syllables of the words in
    order with one [" "] between two words, and none before the first or
    after the last. *)
Theorem improved_returns_spaced_syllables
    (U : unicode) (W : world) (f : str -> string -> result (list str))
    (text : str) (lang_id : string) :
  syllabifier W = Some f ->
  (forall w, In w (split_whitespace U (any_locale_text_preprocessing U text) []) ->
     exists sy, f w lang_id = Ok sy) ->
  indic_syllable_text_processing_improved U W text lang_id
  = Ok (spaced (map (syllables_of f lang_id)
                    (split_whitespace U (any_locale_text_preprocessing U text) []))).
Proof.
  intros Hlib Hok. unfold indic_syllable_text_processing_improved.
  set (words := split_whitespace U (any_locale_text_preprocessing U text) []) in *.
  rewrite (@syllabify_loop_returns W f lang_id Hlib words Hok 0 [] (length words) eq_refl).
  reflexivity.
Qed.

(** A library that gives each word as its one syllable. *)
Lemma improved_returns_spaced_syllables_of_two_words :
  indic_syllable_text_processing_improved python311
    {| syllabifier := Some (fun w _ => Ok [w]); INDIC_RESOURCES_ROOT := None |}
    (str_of " ab  c ") "hi"
  = Ok [str_of "ab"; str_of " "; str_of "c"].
Proof.
  apply (@improved_returns_spaced_syllables python311
           {| syllabifier := Some (fun w _ => Ok [w]); INDIC_RESOURCES_ROOT := None |}
           (fun w _ => Ok [w]) (str_of " ab  c ") "hi" eq_refl).
  intros w _. now exists [w].
Defined.

(** X16: when the library raises on a word, after giving syllables for
    the words before it, a [NameError] for the name [syllabifier] comes
    out as the [ImportError] of the missing library; a [NameError] for any
    other name is swallowed, and the call returns the syllables of the
    words before, each followed by [" "]; any other exception goes
    through. *)
Theorem improved_when_the_library_raises
    (U : unicode) (W : world) (f : str -> string -> result (list str))
    (text : str) (lang_id : string) (pre : list str) (w : str) (post : list str)
    (e : exn) :
  syllabifier W = Some f ->
  split_whitespace U (any_locale_text_preprocessing U text) [] = pre ++ w :: post ->
  (forall w', In w' pre -> exists sy, f w' lang_id = Ok sy) ->
  f w lang_id = Raise e ->
  indic_syllable_text_processing_improved U W text lang_id
  = match e with
    | NameError name =>
        if String.eqb name "syllabifier"
        then Raise (ImportError indic_nlp_not_installed)
        else Ok (concat (map (fun w' => syllables_of f lang_id w' ++ [[SPACE]]) pre))
    | _ => Raise e
    end.
Proof.
  intros Hlib Ewords Hok He. unfold indic_syllable_text_processing_improved.
  rewrite Ewords.
  rewrite (@syllabify_loop_stops W f lang_id Hlib pre w post e Hok He 0 []
             (length (pre ++ w :: post)) eq_refl).
  destruct e; reflexivity.
Qed.

(** A library that knows no word of more than one letter. *)
Lemma improved_returns_part_of_the_syllables :
  indic_syllable_text_processing_improved python311
    {| syllabifier :=
         Some (fun w _ => if length w <=? 1 then Ok [w] else Raise (NameError "loader"));
       INDIC_RESOURCES_ROOT := None |}
    (str_of "a bc d") "hi"
  = Ok [str_of "a"; str_of " "].
Proof.
  apply (@improved_when_the_library_raises python311
           {| syllabifier :=
                Some (fun w _ => if length w <=? 1 then Ok [w]
                                 else Raise (NameError "loader"));
              INDIC_RESOURCES_ROOT := None |}
           (fun w _ => if length w <=? 1 then Ok [w] else Raise (NameError "loader"))
           (str_of "a bc d") "hi" [str_of "a"] (str_of "bc") [str_of "d"]
           (NameError "loader") eq_refl eq_refl).
  - intros w' [<-|[]]. now exists [str_of "a"].
  - reflexivity.
Defined.

(** ** The two patterns on a text without accented letters *)

Section SameOn.

Variable q : char -> Prop.

Lemma repeat_greedy_same_on body body' :
  (forall s, Forall q s -> forall k k',
      (forall s', Forall q s' -> k s' = k' s') -> body s k = body' s k') ->
  forall n s, Forall q s -> forall k k',
    (forall s', Forall q s' -> k s' = k' s') ->
    repeat_greedy body k n s = repeat_greedy body' k' n s.
Proof.
  intros Hb n. induction n as [|n IH]; intros s Hs k k' Hk; simpl; [now apply Hk|].
  rewrite (Hk s Hs). f_equal. apply Hb; [assumption|].
  intros s' Hs'. destruct (length s' <? length s); [|reflexivity].
  now apply IH.
Qed.

Lemma exec_same_on r r' :
  same_on q r r' ->
  forall s, Forall q s -> forall k k',
    (forall s', Forall q s' -> k s' = k' s') -> exec r s k = exec r' s k'.
Proof.
  induction 1 as [p p' Hp | r1 r1' r2 r2' _ IH1 _ IH2 | r r' _ IH];
    intros s Hs k k' Hk; simpl.
  - destruct s as [|c s]; [reflexivity|]. inversion Hs; subst.
    rewrite <- Hp by assumption. destruct (p c); [now apply Hk | reflexivity].
  - apply IH1; [assumption|]. intros s' Hs'. now apply IH2.
  - now apply repeat_greedy_same_on.
Qed.

Variables p p' : words_re.
Hypothesis same_word : same_on q (word_group p) (word_group p').
Hypothesis same_unchanged : same_on q (unchanged_group p) (unchanged_group p').
Hypothesis same_punct : same_on q (punct_group p) (punct_group p').

Lemma match_here_same_on ma s :
  Forall q s -> match_here p ma s = match_here p' ma s.
Proof.
  intros Hs. unfold match_here.
  rewrite (exec_same_on same_word Hs) with (k' := fun rest =>
    if (ma && (length rest =? length s))%bool then None else Some rest)
    by reflexivity.
  rewrite (exec_same_on same_unchanged Hs) with (k' := fun rest =>
    if (ma && (length rest =? length s))%bool then None else Some rest)
    by reflexivity.
  rewrite (exec_same_on same_punct Hs) with (k' := fun rest =>
    if (ma && (length rest =? length s))%bool then None else Some rest)
    by reflexivity.
  reflexivity.
Qed.

Lemma search_same_on s :
  Forall q s -> forall ma, search p ma s = search p' ma s.
Proof.
  induction 1 as [|c s Hc Hs IH]; intros ma.
  - rewrite (@search_eq p ma []), (@search_eq p' ma []).
    rewrite match_here_same_on by constructor. reflexivity.
  - rewrite (@search_eq p ma (c :: s)), (@search_eq p' ma (c :: s)).
    rewrite match_here_same_on by (constructor; assumption).
    destruct (match_here p' ma (c :: s)); [reflexivity | apply IH].
Qed.

(** What [search] leaves is a part of the text it was given. *)
Lemma search_rest_Forall s :
  Forall q s -> forall ma g rest, search p ma s = Some (g, rest) -> Forall q rest.
Proof.
  induction 1 as [|c s Hc Hs IH]; intros ma g rest; rewrite search_eq.
  - destruct (match_here p ma []) as [[g' rest']|] eqn:E; [|discriminate].
    intros [= <- <-]. unfold match_here in E.
    repeat match type of E with
    | context [exec ?r ?s0 ?k] =>
        let E' := fresh "E" in
        destruct (exec r s0 k) eqn:E'; [apply exec_sound in E' |]
    end; try discriminate;
      match goal with
      | H : exists u v, [] = u ++ v /\ _ |- _ =>
          destruct H as (u & v & Huv & _ & Hk);
          symmetry in Huv; apply app_eq_nil in Huv; destruct Huv as [_ ->];
          destruct (ma && _)%bool; [discriminate|];
          injection Hk as <-; injection E as _ <-; constructor
      end.
  - destruct (match_here p ma (c :: s)) as [[g' rest']|] eqn:E; [|apply IH].
    intros [= <- <-]. unfold match_here in E.
    assert (Hall : Forall q (c :: s)) by (constructor; assumption).
    repeat match type of E with
    | context [exec ?r ?s0 ?k] =>
        let E' := fresh "E" in
        destruct (exec r s0 k) eqn:E'; [apply exec_sound in E' |]
    end; try discriminate;
      match goal with
      | H : exists u v, c :: s = u ++ v /\ _ |- _ =>
          destruct H as (u & v & Huv & _ & Hk);
          rewrite Huv in Hall; apply Forall_app in Hall; destruct Hall as [_ Hv];
          destruct (ma && _)%bool; [discriminate|];
          injection Hk as <-; injection E as _ <-; exact Hv
      end.
Qed.

Lemma findall_loop_same_on fuel :
  forall ma s, Forall q s -> findall_loop p fuel ma s = findall_loop p' fuel ma s.
Proof.
  induction fuel as [|fuel IH]; intros ma s Hs; simpl; [reflexivity|].
  rewrite <- search_same_on by assumption.
  destruct (search p ma s) as [[[[w u] x] rest]|] eqn:E; [|reflexivity].
  f_equal. apply IH. eapply search_rest_Forall; eauto.
Qed.

End SameOn.

Lemma words_patterns_same_on (q : char -> Prop) (L L' : char -> bool) :
  (forall c, q c -> L c = L' c) ->
  same_on q (word_group (words_pattern L)) (word_group (words_pattern L')) /\
  same_on q (unchanged_group (words_pattern L)) (unchanged_group (words_pattern L')) /\
  same_on q (punct_group (words_pattern L)) (punct_group (words_pattern L')).
Proof.
  intros H. simpl. unfold Plus.
  repeat split; repeat constructor; intros c Hc; rewrite ?(H c Hc); reflexivity.
Qed.



(** ** The normalized text *)

(** X18: [normalize_unicode_text] returns a text that [is_normalized]
    accepts, granted that it accepts what NFC returns. *)
Theorem normalize_unicode_text_is_normalized (U : unicode) (text : str) :
  (forall t, is_normalized_NFC U (normalize_NFC U t) = true) ->
  is_normalized_NFC U (normalize_unicode_text U text) = true.
Proof.
  intros H. unfold normalize_unicode_text.
  destruct (is_normalized_NFC U text) eqn:E; simpl; [exact E | apply H].
Qed.

Lemma python311_accepts_its_NFC (t : str) :
  is_normalized_NFC python311 (normalize_NFC python311 t) = true.
Proof.
  simpl. unfold str_eqb. rewrite compose_idempotent.
  destruct (list_eq_dec N.eq_dec (compose t) (compose t)); congruence.
Qed.

(** The decomposed spelling of U+00F6, normalized. *)
Lemma normalize_unicode_text_is_normalized_python311 :
  is_normalized_NFC python311
    (normalize_unicode_text python311 [chr "o"; COMBINING_DIAERESIS]) = true.
Proof.
  apply normalize_unicode_text_is_normalized. exact python311_accepts_its_NFC.
Defined.


(** ** Tokens and text, word by word *)

Lemma tiles_spelled s gs :
  tiles s gs -> remove_pipes s = concat (map (spelled (fun w => w)) gs).
Proof.
  induction 1 as [ | rest gs Hn _ IH | g rest gs Hg _ IH].
  - reflexivity.
  - exact IH.
  - rewrite remove_pipes_app, IH. cbn [map concat]. f_equal.
    destruct Hg as [w Hw Hp | mid Hp | x Hx Hp]; cbn [whole spelled].
    + rewrite (@nonempty_true w Hw), !app_nil_r. now apply remove_pipes_none.
    + cbn [nonempty app]. now rewrite !app_nil_r.
    + cbn [nonempty app]. rewrite (@remove_pipes_none x Hp). reflexivity.
Qed.

Lemma rejoin_spelled (U : unicode) (gs : list groups) :
  Forall token_match gs ->
  rejoin (map (token_of U true) gs) = concat (map (spelled (lower U)) gs).
Proof.
  induction 1 as [|g gs Hg _ IH]; [reflexivity|].
  unfold rejoin in *. cbn [map concat]. rewrite IH. f_equal.
  destruct Hg as [w Hw Hp | mid Hp | x Hx Hp]; cbn [token_of spelled].
  - now rewrite (@nonempty_true w Hw).
  - cbn [nonempty]. rewrite slice_between. unfold token_text. cbn [fst].
    now rewrite join_split, (@remove_pipes_span mid Hp), app_nil_r.
  - cbn [nonempty]. rewrite (@nonempty_true x Hx). unfold token_text. cbn [fst join].
    reflexivity.
Qed.

Lemma english_matches_shape (text : str) :
  Forall (fun g => token_match g /\
                   (is_word g = true ->
                    word_shape LATIN_ALPHABET_BASIC (fst (fst g)) = true))
         (findall _WORDS_RE_EN text).
Proof.
  pose proof (tiles_token_match
                (@findall_tiles _ text LATIN_ALPHABET_BASIC_not_pipe)) as Ht.
  pose proof (findall_lang _WORDS_RE_EN text) as Hl.
  rewrite Forall_forall in *. intros g Hg. split; [now apply Ht|].
  destruct (Hl g Hg) as (u & [[-> Hu] | [[-> Hu] | [-> Hu]]]); cbn.
  - intros _. now apply lang_word_shape.
  - discriminate.
  - discriminate.
Qed.

(** C3 (amended): for every text, with balanced pipes or not, the tokenizer
    returns tokens, and their pieces in order, those of a protected token
    joined by one space, spell the text without its pipe characters.  For
    [any_locale_word_tokenize] exactly.  For [english_word_tokenize] up to
    the lowercasing of the words and of nothing else: the text without
    its pipes is its matches in order, each protected span without its two
    pipes, and the tokens spell the same with every match of the word
    group, and only those, lowercased; such a match is made of letters,
    hyphens and apostrophes, with a letter first and last. *)
Theorem tokens_spell_text_without_pipes (U : unicode) (text : str) :
  (exists tokens,
      any_locale_word_tokenize U text = Ok tokens /\
      rejoin tokens = remove_pipes text) /\
  (exists tokens,
      english_word_tokenize U text = Ok tokens /\
      remove_pipes text
      = concat (map (spelled (fun w => w)) (findall _WORDS_RE_EN text)) /\
      rejoin tokens
      = concat (map (spelled (lower U)) (findall _WORDS_RE_EN text)) /\
      Forall (fun g => token_match g /\
                       (is_word g = true ->
                        word_shape LATIN_ALPHABET_BASIC (fst (fst g)) = true))
             (findall _WORDS_RE_EN text)).
Proof.
  split.
  - destruct (@word_tokenize_tiles U false _ _
                (@findall_tiles _ text LATIN_CHARS_ALL_not_pipe))
      as (tokens & E & _ & H).
    exists tokens. auto.
  - pose proof (@findall_tiles _ text LATIN_ALPHABET_BASIC_not_pipe) as Ht.
    exists (map (token_of U true) (findall _WORDS_RE_EN text)).
    split; [apply tokenize_english|]. split; [now apply tiles_spelled|].
    split; [apply rejoin_spelled; now apply tiles_token_match with (s := text)|].
    apply english_matches_shape.
Qed.
